(** * image_lab: the encode interface and the steganographic codec

    Part I embeds the two pieces of executable logic of the encode page
    ([frontend_stegnography/app/encode/page.tsx]): the capacity estimate of
    the [useEffect] at lines 40-49 and the request construction of
    [handleEncode] at lines 86-130.

    JavaScript numbers are modelled as [Z]: image dimensions, the channel
    count and the slider value are integers, and every product below stays an
    exact integer in double precision as long as it is below 2^53. *)

From Stdlib Require Import ZArith List Bool String Ascii Lia.
From Stdlib Require Import Strings.Byte.
From Stdlib Require Import DecimalString DecimalZ Permutation.
Import ListNotations.

Local Open Scope Z_scope.

(* ================================================================== *)
(** ** Part I: the encode page                                        *)
(* ================================================================== *)

Module EncodeLab.

(** [File] objects handed over by the browser. *)
Record File := mkFile {
  file_name : string;
  file_type : string;
  file_size : Z
}.

(** [imageStats]: [{ width, height, format, size }]. *)
Record ImageStats := mkStats {
  width  : Z;
  height : Z;
  format : string;
  size   : Z
}.

Inductive Tab := TextTab | FileTab.

(** The component state: one field per [useState] the two functions read or
    write. [bitsPerChannel] is the one-element array the slider yields. *)
Record State := mkState {
  coverImage     : option File;
  imageStats     : option ImageStats;
  activeTab      : Tab;
  secretText     : string;
  secretFile     : option File;
  bitsPerChannel : list Z;
  channels       : list string;
  useEncryption  : bool;
  password       : string;
  compress       : bool;
  maxCapacity    : Z
}.

(** The initial values of the [useState] calls. *)
Definition initialState : State :=
  mkState None None TextTab EmptyString None [1] ["R"; "G"; "B"]%string false
          EmptyString false 0.

(** *** The capacity estimate (lines 40-49) *)

(** The body of the effect once [imageStats] is known:
<<
  const pixels = imageStats.width * imageStats.height
  const channelCount = channels.length
  const totalBits = pixels * channelCount * bitsPerChannel[0]
  const capacityBytes = Math.floor(totalBits / 8)
  const usableCapacity = Math.max(0, capacityBytes - 100) // Overhead buffer
>>
    [Z.div] rounds towards minus infinity, as [Math.floor] does. *)
Definition usableCapacity (w h channelCount bits : Z) : Z :=
  let pixels := w * h in
  let totalBits := pixels * channelCount * bits in
  let capacityBytes := totalBits / 8 in
  Z.max 0 (capacityBytes - 100).

(** The effect itself: nothing happens before an image is loaded. The slider
    always yields a one-element array; on an empty array JavaScript would
    compute [NaN], which is outside this model, and the state is left as is. *)
Definition capacityEffect (st : State) : State :=
  match imageStats st, bitsPerChannel st with
  | Some stats, b :: _ =>
      let usable :=
        usableCapacity (width stats) (height stats)
                       (Z.of_nat (List.length (channels st))) b in
      mkState (coverImage st) (imageStats st) (activeTab st) (secretText st)
              (secretFile st) (bitsPerChannel st) (channels st)
              (useEncryption st) (password st) (compress st) usable
  | _, _ => st
  end.

(** *** Request construction (lines 86-130) *)

(** A [FormData] entry is a string or a file. *)
Inductive FormValue :=
| FText (s : string)
| FFile (f : File).

Definition FormData := list (string * FormValue).

Definition append (fd : FormData) (k : string) (v : FormValue) : FormData :=
  fd ++ [(k, v)].

Record Request := mkRequest {
  url    : string;
  method : string;
  body   : FormData
}.

(** [n.toString()] of an integer-valued number. *)
Definition toString (n : Z) : string := NilZero.string_of_int (Z.to_int n).

(** JavaScript truthiness of a string: non-empty. *)
Definition truthy (s : string) : bool :=
  match s with EmptyString => false | _ => true end.

(** [if (useEncryption && password) formData.append('password', password)] *)
Definition appendPassword (st : State) (fd : FormData) : FormData :=
  if useEncryption st && truthy (password st)
  then append fd "password" (FText (password st))
  else fd.

(** [formData.append('secret', secretFile!)]: the non-null assertion is erased
    at run time, and [FormData] stringifies a [null] value. *)
Definition secretValue (st : State) : FormValue :=
  match secretFile st with
  | Some f => FFile f
  | None => FText "null"
  end.

(** The request [handleEncode] sends, or [None] when it sends none: the early
    [return] without a cover image, and the [TypeError] of
    [bitsPerChannel[0].toString()] on an empty array, which the [catch]
    swallows before any [fetch]. *)
Definition handleEncode (st : State) : option Request :=
  match coverImage st with
  | None => None
  | Some cover =>
      let formData := append [] "file" (FFile cover) in
      match activeTab st with
      | TextTab =>
          let formData := append formData "text" (FText (secretText st)) in
          let formData := appendPassword st formData in
          match bitsPerChannel st with
          | [] => None
          | b :: _ =>
              let formData := append formData "bits_per_channel" (FText (toString b)) in
              Some (mkRequest "http://localhost:5000/stego/hide-text" "POST" formData)
          end
      | FileTab =>
          let formData := append formData "cover" (FFile cover) in
          let formData := append formData "secret" (secretValue st) in
          let formData := appendPassword st formData in
          match bitsPerChannel st with
          | [] => None
          | b :: _ =>
              let formData := append formData "bits_per_channel" (FText (toString b)) in
              Some (mkRequest "http://localhost:5000/stego/hide-file" "POST" formData)
          end
      end
  end.

(** Two states that differ at most in the channel selection, the compression
    switch (and the derived capacity figure, which depends on the channels). *)
Definition sameButChannelsAndCompress (s1 s2 : State) : Prop :=
  coverImage s1 = coverImage s2 /\
  imageStats s1 = imageStats s2 /\
  activeTab s1 = activeTab s2 /\
  secretText s1 = secretText s2 /\
  secretFile s1 = secretFile s2 /\
  bitsPerChannel s1 = bitsPerChannel s2 /\
  useEncryption s1 = useEncryption s2 /\
  password s1 = password s2.

(** The field names a request may carry. *)
Definition requestKeys : list string :=
  ["file"; "cover"; "text"; "secret"; "password"; "bits_per_channel"]%string.

Definition keysOf (fd : FormData) : list string := map fst fd.

(** Two concrete states of the page: the same cover image, text and depth,
    once with the default channels and no compression, once with only the red
    channel and compression switched on. *)
Definition demoCover : File := mkFile "cover.png" "image/png" 4096.

Definition demoStateA : State :=
  mkState (Some demoCover) (Some (mkStats 100 100 "PNG" 4096)) TextTab
          "HELLO" None [2] ["R"; "G"; "B"]%string true "pw123" false 0.

Definition demoStateB : State :=
  mkState (Some demoCover) (Some (mkStats 100 100 "PNG" 4096)) TextTab
          "HELLO" None [2] ["R"]%string true "pw123" true 0.

(** A 5 x 5 image has just been loaded; the capacity figure is stale. *)
Definition demoStateSmall : State :=
  mkState None (Some (mkStats 5 5 "PNG" 300)) TextTab EmptyString None [1]
          ["R"; "G"; "B"]%string false EmptyString false 77.

End EncodeLab.

(* ================================================================== *)
(** ** Part I, continued: the rest of the pages                       *)
(* ================================================================== *)

(** The remaining logic of [frontend_stegnography/app/encode/page.tsx]: the
    state setters, the channel buttons, the payload-size effect and the
    condition that disables the encode button. *)
Module EncodePage.

Import EncodeLab.

(** The [useState] setters the properties below need. *)
Definition setSecretText (v : string) (st : State) : State :=
  mkState (coverImage st) (imageStats st) (activeTab st) v (secretFile st)
          (bitsPerChannel st) (channels st) (useEncryption st) (password st)
          (compress st) (maxCapacity st).

Definition setSecretFile (v : option File) (st : State) : State :=
  mkState (coverImage st) (imageStats st) (activeTab st) (secretText st) v
          (bitsPerChannel st) (channels st) (useEncryption st) (password st)
          (compress st) (maxCapacity st).

Definition setChannels (v : list string) (st : State) : State :=
  mkState (coverImage st) (imageStats st) (activeTab st) (secretText st)
          (secretFile st) (bitsPerChannel st) v (useEncryption st)
          (password st) (compress st) (maxCapacity st).

Definition setUseEncryption (v : bool) (st : State) : State :=
  mkState (coverImage st) (imageStats st) (activeTab st) (secretText st)
          (secretFile st) (bitsPerChannel st) (channels st) v (password st)
          (compress st) (maxCapacity st).

(** *** The channel buttons (lines 247-257) *)

(** [prev.includes(channel)] *)
Definition includes (prev : list string) (channel : string) : bool :=
  existsb (String.eqb channel) prev.

(** The updater a click on a channel button passes to [setChannels]:
<<
  prev => prev.includes(channel) ? prev.filter(c => c !== channel)
                                 : [...prev, channel]
>> *)
Definition toggleChannel (channel : string) (prev : list string)
    : list string :=
  if includes prev channel
  then filter (fun c => negb (String.eqb c channel)) prev
  else prev ++ [channel].

(** The buttons rendered: [['R', 'G', 'B'].map(channel => <Button ...>)]. *)
Definition channelButtons : list string := ["R"; "G"; "B"]%string.

(** A sequence of clicks on channel buttons, oldest first. *)
Definition clickChannels (clicks : list string) (prev : list string)
    : list string :=
  fold_left (fun sel channel => toggleChannel channel sel) clicks prev.

(** *** The payload-size effect (lines 52-64) *)

(** The value the effect passes to [setCurrentSize]:
<<
  let size = 0
  if (activeTab === "text") { size = new Blob([secretText]).size }
  else if (secretFile) { size = secretFile.size }
  if (useEncryption) size += 48 // Salt + IV overhead
  if (compress) size = Math.ceil(size * 0.9) // Rough estimate
>>
    The text is kept as its UTF-8 bytes, so that the [Blob]'s size is the
    string's length. [Math.ceil(size * 0.9)] is double-precision arithmetic,
    which is not modelled: it is the parameter [ceil09]. *)
Definition payloadSize (ceil09 : Z -> Z) (st : State) : Z :=
  let size :=
    match activeTab st with
    | TextTab => Z.of_nat (String.length (secretText st))
    | FileTab =>
        match secretFile st with
        | Some f => file_size f
        | None => 0
        end
    end in
  let size := if useEncryption st then size + 48 else size in
  if compress st then ceil09 size else size.

(** *** The encode button (line 299) *)

(** [disabled={!coverImage || isProcessing || currentSize > maxCapacity}] *)
Definition encodeDisabled (st : State) (isProcessing : bool)
    (currentSize : Z) : bool :=
  match coverImage st with None => true | Some _ => false end ||
  isProcessing ||
  (maxCapacity st <? currentSize).

(** *** Reading a request *)

(** [FormData.get(name)]: the first value appended under [name]. *)
Definition get (fd : FormData) (name : string) : option FormValue :=
  match find (fun e => String.eqb (fst e) name) fd with
  | Some e => Some (snd e)
  | None => None
  end.

(** A reader of decimal integers, for what a server makes of a numeric
    field. *)
Definition parseDecimal (v : FormValue) : option Z :=
  match v with
  | FText s => option_map Z.of_int (NilZero.int_of_string s)
  | FFile _ => None
  end.

(** Encryption is switched on, no passphrase has been typed. *)
Definition demoStateNoPassphrase : State :=
  mkState (Some demoCover) None TextTab "HELLO" None [1]
          ["R"; "G"; "B"]%string true EmptyString false 0.

End EncodePage.

(** [DecodeLab] of the decode page: the request of [handleDecode]. *)
Module DecodeLab.

Import EncodeLab.

(** The two pieces of state [handleDecode] reads. *)
Record State := mkState {
  stegoImage : option File;
  password   : string
}.

(** The request [handleDecode] sends, or [None] after the early [return]:
<<
  if (!stegoImage) return
  formData.append('file', stegoImage)
  if (password) formData.append('password', password)
  fetch('http://localhost:5000/stego/reveal-text', { method: 'POST', ... })
>> *)
Definition handleDecode (st : State) : option Request :=
  match stegoImage st with
  | None => None
  | Some img =>
      let formData := append [] "file" (FFile img) in
      let formData :=
        if truthy (password st)
        then append formData "password" (FText (password st))
        else formData in
      Some (mkRequest "http://localhost:5000/stego/reveal-text" "POST"
                      formData)
  end.

End DecodeLab.

(** [AnalyzeLab] of the analysis page: the request of [handleVisualize]. *)
Module AnalyzeLab.

Import EncodeLab.

(** [useState<'R' | 'G' | 'B'>('R')] *)
Inductive Channel := R | G | B.

Definition channelString (c : Channel) : string :=
  match c with R => "R" | G => "G" | B => "B" end.

(** The state [handleVisualize] reads; [bitPlane] is the slider's array. *)
Record State := mkState {
  image    : option File;
  bitPlane : list Z;
  channel  : Channel
}.

(** The request [handleVisualize] sends, or [None]: the early [return]
    without an image, and the [TypeError] of [bitPlane[0].toString()] on an
    empty array, caught before any [fetch].
<<
  formData.append('file', image)
  formData.append('bit_plane', bitPlane[0].toString())
  formData.append('channel', channel)
  fetch('http://localhost:5000/stego/visualize', { method: 'POST', ... })
>> *)
Definition handleVisualize (st : State) : option Request :=
  match image st with
  | None => None
  | Some img =>
      let formData := append [] "file" (FFile img) in
      match bitPlane st with
      | [] => None
      | b :: _ =>
          let formData := append formData "bit_plane" (FText (toString b)) in
          let formData :=
            append formData "channel" (FText (channelString (channel st))) in
          Some (mkRequest "http://localhost:5000/stego/visualize" "POST"
                          formData)
      end
  end.

End AnalyzeLab.

(** [AppSidebar]: which navigation entry is shown as active. *)
Module AppSidebar.

Record NavItem := mkItem {
  title : string;
  url   : string
}.

Record NavGroup := mkGroup {
  group_title : string;
  items       : list NavItem
}.

(** The [navMain] table. *)
Definition navMain : list NavGroup :=
  [ mkGroup "Workbench"
      [ mkItem "Dashboard" "/";
        mkItem "Encode Lab" "/encode";
        mkItem "Decode Lab" "/decode";
        mkItem "Bit Analysis" "/analyze" ];
    mkGroup "Research"
      [ mkItem "Capacity Metrics" "/capacity";
        mkItem "Batch Processing" "/batch" ] ].

(** [const isActive = pathname === item.url] *)
Definition isActive (pathname : string) (item : NavItem) : bool :=
  String.eqb pathname (url item).

(** The entries rendered with [isActive], in rendering order: the two nested
    [map]s over the groups and their items. *)
Definition activeItems (pathname : string) : list NavItem :=
  flat_map (fun group => filter (isActive pathname) (items group)) navMain.

End AppSidebar.

(* ================================================================== *)
(** ** Part II: the steganographic codec                              *)
(* ================================================================== *)

(** The codec itself (the service behind [/stego/hide-text],
    [/stego/reveal-text] and [/stego/capacity]) is called by the pages above
    but its source is not part of the sources at hand. Every definition of
    this part is therefore modelled from the specification, section by
    section, and says so. What the specification leaves open (the magic
    marker, the checksum function, the compressor, the cipher, the
    error-correction code and the two capacity constants) is a parameter of
    the model. *)

Module Codec.

Local Open Scope nat_scope.

(** *** Errors and results (specification, section 7) *)

(** Modelled from the spec: the error taxonomy of the missing codec. *)
Inductive Error :=
| CapacityExceededError
| InvalidParameterError
| NoHiddenDataError
| CorruptPayloadError
| DecryptionError
| UnsupportedCombinationError.

(** What a call of the codec reports: a value, or exactly one error. *)
Inductive result (A : Type) :=
| Ok (a : A)
| Err (e : Error).
Arguments Ok {A} a.
Arguments Err {A} e.

(** *** Data model (section 3) *)

(** Modelled from the spec: the colour channels the missing codec embeds in,
    in their fixed order. *)
Inductive Channel := R | G | B.

(** Modelled from the spec: a pixel of the missing codec's raster, an ordered
    tuple of channel values with an optional alpha that is never used. *)
Record Pixel := mkPixel {
  red   : Z;
  green : Z;
  blue  : Z;
  alpha : option Z
}.

(** Modelled from the spec: the image of the missing codec, a width x height
    raster in row-major order. *)
Record Image := mkImage {
  width  : nat;
  height : nat;
  pixels : list Pixel
}.

(** Modelled from the spec: the channel mask, a subset of {R,G,B}. *)
Record ChannelMask := mkMask {
  useR : bool;
  useG : bool;
  useB : bool
}.

Definition RGB : ChannelMask := mkMask true true true.

(** Modelled from the spec: the channels a mask of the missing codec selects,
    in the fixed order R, G, B. *)
Definition mask_channels (m : ChannelMask) : list Channel :=
  (if useR m then [R] else []) ++
  (if useG m then [G] else []) ++
  (if useB m then [B] else []).

Definition mask_count (m : ChannelMask) : nat := List.length (mask_channels m).

Definition mask_nonempty (m : ChannelMask) : bool :=
  useR m || useG m || useB m.

(** Modelled from the spec: the error-correction levels of the missing
    codec's hide operations. *)
Inductive ErrorCorrection := ec_none | ec_low | ec_medium | ec_high.

(** Modelled from the spec: the flags bitmask of the header, kept as a
    record of named booleans (section 9). *)
Record Flags := mkFlags {
  compressed      : bool;
  encrypted       : bool;
  error_corrected : bool
}.

(** Modelled from the spec: the EmbeddingHeader record of section 3 (the
    magic marker is a constant and not a field). *)
Record Header := mkHeader {
  version           : Z;
  flags             : Flags;
  h_bits_per_channel : nat;
  h_channel_mask    : ChannelMask;
  payload_length    : nat;
  h_checksum        : Z
}.

(** Modelled from the spec: the parameters of hide-text / hide-file. *)
Record Params := mkParams {
  bits_per_channel : nat;
  channel_mask     : ChannelMask;
  compress         : bool;
  password         : option (list byte);
  error_correction : ErrorCorrection
}.

(** Modelled from the spec: the fresh salt and nonce the missing encryption
    stage draws, made an explicit input. *)
Record Entropy := mkEntropy {
  salt  : list byte;
  nonce : list byte
}.

(** The same parameters under another password. *)
Definition with_password (ps : Params) (k : list byte) : Params :=
  mkParams (bits_per_channel ps) (channel_mask ps) (compress ps) (Some k)
           (error_correction ps).

(** *** Bit packer / unpacker (section 4.4) *)

Definition get_channel (p : Pixel) (c : Channel) : Z :=
  match c with R => red p | G => green p | B => blue p end.

Definition set_channel (p : Pixel) (c : Channel) (v : Z) : Pixel :=
  match c with
  | R => mkPixel v (green p) (blue p) (alpha p)
  | G => mkPixel (red p) v (blue p) (alpha p)
  | B => mkPixel (red p) (green p) v (alpha p)
  end.

Definition set_bit (v : Z) (i : nat) (x : bool) : Z :=
  if x then Z.setbit v (Z.of_nat i) else Z.clearbit v (Z.of_nat i).

(** Modelled from the spec: the bit convention of the missing packer. The low
    [b] bits of a value are filled most significant first; bits for which the
    stream has run out, and all higher-order bits, keep their value. *)
Fixpoint write_low (b : nat) (v : Z) (bits : list bool) : Z * list bool :=
  match b with
  | O => (v, bits)
  | S b' =>
      match bits with
      | [] => (v, [])
      | x :: rest => write_low b' (set_bit v b' x) rest
      end
  end.

(** Modelled from the spec: the read side of the same convention. *)
Fixpoint read_low (b : nat) (v : Z) : list bool :=
  match b with
  | O => []
  | S b' => Z.testbit v (Z.of_nat b') :: read_low b' v
  end.

(** Modelled from the spec: the missing packer within one pixel, channel by
    channel in the order given. *)
Fixpoint write_pixel (chs : list Channel) (b : nat) (p : Pixel)
    (bits : list bool) : Pixel * list bool :=
  match chs with
  | [] => (p, bits)
  | c :: cs =>
      let (v, rest) := write_low b (get_channel p c) bits in
      write_pixel cs b (set_channel p c v) rest
  end.

Definition read_pixel (chs : list Channel) (b : nat) (p : Pixel) : list bool :=
  flat_map (fun c => read_low b (get_channel p c)) chs.

(** Modelled from the spec: the raster order of the missing packer; the pixel
    list is walked front to back. *)
Fixpoint write_pixels (chs : list Channel) (b : nat) (px : list Pixel)
    (bits : list bool) : list Pixel * list bool :=
  match px with
  | [] => ([], bits)
  | p :: ps =>
      let (p', rest) := write_pixel chs b p bits in
      let (ps', rest') := write_pixels chs b ps rest in
      (p' :: ps', rest')
  end.

Definition read_pixels (chs : list Channel) (b : nat) (px : list Pixel)
    : list bool :=
  flat_map (read_pixel chs b) px.

(** Modelled from the spec: [pack] of the missing packer; [start] is a pixel
    offset. It fails with a capacity error, and writes nothing, when the bits
    exceed the slots available from [start] onward. *)
Definition pack (bits : list bool) (px : list Pixel) (m : ChannelMask)
    (b : nat) (start : nat) : result (list Pixel) :=
  if List.length bits <=? (List.length px - start) * (mask_count m * b)
  then Ok (firstn start px ++
           fst (write_pixels (mask_channels m) b (skipn start px) bits))
  else Err CapacityExceededError.

(** Modelled from the spec: [unpack] of the missing packer, a pure read of
    [count] bits from pixel [start] onward. *)
Definition unpack (px : list Pixel) (m : ChannelMask) (b : nat)
    (start : nat) (count : nat) : option (list bool) :=
  let all := read_pixels (mask_channels m) b (skipn start px) in
  if count <=? List.length all then Some (firstn count all) else None.

(** What a region reads back after [new] has been written over it: [new]
    replaces the front of [old], as far as both reach. *)
Fixpoint overwrite (new old : list bool) {struct old} : list bool :=
  match old with
  | [] => []
  | o :: old' =>
      match new with
      | [] => old
      | x :: new' => x :: overwrite new' old'
      end
  end.

(** *** Bytes and numbers as bit strings *)

(** Modelled from the spec: the missing codec's bit stream of a byte; most
    significant bit first is this model's choice. *)
Definition byte_to_bits (x : byte) : list bool :=
  let '(b0, (b1, (b2, (b3, (b4, (b5, (b6, b7))))))) := Byte.to_bits x in
  [b7; b6; b5; b4; b3; b2; b1; b0].

Definition bytes_to_bits (l : list byte) : list bool :=
  flat_map byte_to_bits l.

Fixpoint bits_to_bytes (bits : list bool) : list byte :=
  match bits with
  | b7 :: b6 :: b5 :: b4 :: b3 :: b2 :: b1 :: b0 :: rest =>
      Byte.of_bits (b0, (b1, (b2, (b3, (b4, (b5, (b6, b7))))))) ::
      bits_to_bytes rest
  | _ => []
  end.

(** A [w]-bit big-endian field. *)
Definition bits_of_Z (w : nat) (n : Z) : list bool := read_low w n.

Definition Z_of_bits (w : nat) (bits : list bool) : Z :=
  fst (write_low w 0%Z bits).

Definition mask_to_Z (m : ChannelMask) : Z :=
  ((if useR m then 4 else 0) + (if useG m then 2 else 0) +
   (if useB m then 1 else 0))%Z.

Definition mask_of_Z (z : Z) : ChannelMask :=
  mkMask (Z.testbit z 2) (Z.testbit z 1) (Z.testbit z 0).

Definition flags_to_Z (f : Flags) : Z :=
  ((if compressed f then 1 else 0) + (if encrypted f then 2 else 0) +
   (if error_corrected f then 4 else 0))%Z.

Definition flags_of_Z (z : Z) : Flags :=
  mkFlags (Z.testbit z 0) (Z.testbit z 1) (Z.testbit z 2).

(** *** Stand-ins for the stages the specification leaves open

    Small executable instances of the model's parameters, on which the
    statements below are run on concrete images. Each stage leaves a mark of
    its own, so that the order of the stages is visible in the result. *)

Definition demo_magic : list byte := [x53; x54; x45; x47].

Definition demo_checksum (l : list byte) : Z :=
  fold_right (fun x acc => (Z.of_N (Byte.to_N x) + 31 * acc)%Z) 7%Z l.

Definition demo_compress (l : list byte) : list byte := xc0 :: l.

Definition demo_decompress (l : list byte) : option (list byte) :=
  match l with
  | xc0 :: rest => Some rest
  | _ => None
  end.

(** The password, each byte escorted by a [x01], closed by a [x00]. *)
Fixpoint demo_tag (pw : list byte) : list byte :=
  match pw with
  | [] => [x00]
  | c :: r => x01 :: c :: demo_tag r
  end.

Definition demo_seal (pw s n m : list byte) : list byte := demo_tag pw ++ m.

Fixpoint demo_open (pw env : list byte) : option (list byte) :=
  match pw, env with
  | [], x00 :: rest => Some rest
  | c :: r, x01 :: c' :: rest =>
      if Byte.eqb c c' then demo_open r rest else None
  | _, _ => None
  end.

Definition demo_level (l : ErrorCorrection) : byte :=
  match l with
  | ec_none => x00 | ec_low => xe1 | ec_medium => xe2 | ec_high => xe3
  end.

Definition demo_ec_encode (l : ErrorCorrection) (p : list byte) : list byte :=
  demo_level l :: p.

Definition demo_ec_decode (l : list byte) : option (list byte) :=
  match l with
  | _ :: rest => Some rest
  | [] => None
  end.

(** A second stand-in cipher, of the shape the specification gives the
    envelope: its size does not depend on the password. A one-byte key is
    derived from the password and put before the text as the tag. *)
Definition demo_kdf (pw : list byte) : byte :=
  match Byte.of_N
          (N.modulo (fold_right (fun c acc => (Byte.to_N c + acc)%N) 0%N pw)
                    256) with
  | Some b => b
  | None => x00
  end.

Definition demo_short_seal (pw s n m : list byte) : list byte :=
  demo_kdf pw :: m.

Definition demo_short_open (pw env : list byte) : option (list byte) :=
  match env with
  | t :: m => if Byte.eqb t (demo_kdf pw) then Some m else None
  | [] => None
  end.

(** Every byte, and every byte string of a given length. *)
Definition all_bytes : list byte :=
  map (fun i => match Byte.of_nat i with Some b => b | None => x00 end)
      (seq 0 256).

Fixpoint all_lists (len : nat) : list (list byte) :=
  match len with
  | O => [[]]
  | S len' => flat_map (fun b => map (cons b) (all_lists len')) all_bytes
  end.

(** A cover image with some variety in its channel values. *)
Definition demo_pixel (i : nat) : Pixel :=
  mkPixel (Z.of_nat ((7 * i + 3) mod 256))
          (Z.of_nat ((13 * i + 101) mod 256))
          (Z.of_nat ((29 * i + 55) mod 256))
          None.

Definition demo_image (w h : nat) : Image :=
  mkImage w h (map demo_pixel (seq 0 (w * h))).

Definition demo_payload : list byte := [x48; x45; x4c; x4c; x4f].

Definition demo_entropy : Entropy := mkEntropy [x11; x12] [x21; x22].



(** Damage in transit: the lowest red bit of pixel [i] is flipped. *)
Fixpoint flip_red_lsb (i : nat) (px : list Pixel) : list Pixel :=
  match px with
  | [] => []
  | p :: ps =>
      match i with
      | O => set_channel p R (Z.lxor (red p) 1) :: ps
      | S i' => p :: flip_red_lsb i' ps
      end
  end.

(** Depth 1 over R, G, B with every stage off; and depth 3 over R and B with
    every stage on. *)
Definition demo_plain : Params := mkParams 1 RGB false None ec_none.

Definition demo_full : Params :=
  mkParams 3 (mkMask true false true) true (Some [x70; x77]) ec_medium.

(** *** The orchestrator's machine (sections 4.6 and 5)

    One call works on one pixel buffer. The machine below carries that buffer
    and the list of stages entered so far; a failure keeps both, so that what
    had happened by the time of the failure can be stated. *)

(** Modelled from the spec: the stages of the missing orchestrator's two
    sequences, and of the pipeline. *)
Inductive Stage :=
| SValidate | SCompress | SEncrypt | SErrorCorrect | SMeasure
| SCheckCapacity | SWriteHeader | SWritePayload
| SReadHeader | SReadPayload | SVerifyChecksum
| SInvertErrorCorrection | SDecrypt | SDecompress.

Record Machine := mkMachine {
  buffer : list Pixel;
  trace  : list Stage
}.

Definition M (A : Type) : Type := Machine -> result A * Machine.

Definition ret {A} (a : A) : M A := fun m => (Ok a, m).

Definition fail {A} (e : Error) : M A := fun m => (Err e, m).

Definition bind {A B} (c : M A) (k : A -> M B) : M B :=
  fun m =>
    match c m with
    | (Ok a, m') => k a m'
    | (Err e, m') => (Err e, m')
    end.

Definition get_buffer : M (list Pixel) := fun m => (Ok (buffer m), m).

Definition put_buffer (b : list Pixel) : M unit :=
  fun m => (Ok tt, mkMachine b (trace m)).

Definition enter (s : Stage) : M unit :=
  fun m => (Ok tt, mkMachine (buffer m) (trace m ++ [s])).

Definition lift {A} (r : result A) : M A :=
  match r with Ok a => ret a | Err e => fail e end.

Definition or_fail {A} (e : Error) (o : option A) : M A :=
  match o with Some a => ret a | None => fail e end.

Notation "x <- c ;; k" := (bind c (fun x => k))
  (at level 61, c at next level, right associativity).
Notation "c ;; k" := (bind c (fun _ => k))
  (at level 61, right associativity).

(** The machine a call starts from: a copy of the image's pixels. *)
Definition start (px : list Pixel) : Machine := mkMachine px [].

Fixpoint bits_eqb (a b : list bool) : bool :=
  match a, b with
  | [], [] => true
  | x :: a', y :: b' => Bool.eqb x y && bits_eqb a' b'
  | _, _ => false
  end.

(** Modelled from the spec: the format version the missing header codec
    writes; the number is this model's. *)
Definition FORMAT_VERSION : Z := 1%Z.

Section Model.

(** The parameters of the model: the magic marker, the checksum function, the
    compressor, the cipher (password, salt, nonce, plaintext), the
    error-correction code and the two constants of the capacity formula. *)
Variable magic : list byte.
Variable checksum : list byte -> Z.
Variable compress_bytes : list byte -> list byte.
Variable decompress_bytes : list byte -> option (list byte).
Variable seal : list byte -> list byte -> list byte -> list byte -> list byte.
Variable open : list byte -> list byte -> option (list byte).
Variable ec_encode : ErrorCorrection -> list byte -> list byte.
Variable ec_decode : list byte -> option (list byte).
Variable header_bits_reserved : Z.
Variable safety_margin : Z.

(** *** Header codec (section 4.1) *)

(** Modelled from the spec: the layout of the missing header codec. The
    specification fixes the fields and that the record has a fixed size; the
    widths are this model's: the magic marker, then one byte each for the
    version, the flags, the bit depth and the channel mask, then 32 bits each
    for the payload length and the checksum. *)
Definition header_bits : nat := 8 * List.length magic + 96.

(** Modelled from the spec: the leading pixels the header occupies at one bit
    per R, G, B; the payload starts at the pixel after them. *)
Definition header_pixels : nat := (header_bits + 2) / 3.

(** The checksum as the 32-bit field stores it. *)
Definition checksum32 (t : list byte) : Z := (checksum t mod 2 ^ 32)%Z.

(** Modelled from the spec: [write_header] of the missing header codec. *)
Definition write_header (h : Header) : list bool :=
  bytes_to_bits magic ++
  bits_of_Z 8 (version h) ++
  bits_of_Z 8 (flags_to_Z (flags h)) ++
  bits_of_Z 8 (Z.of_nat (h_bits_per_channel h)) ++
  bits_of_Z 8 (mask_to_Z (h_channel_mask h)) ++
  bits_of_Z 32 (Z.of_nat (payload_length h)) ++
  bits_of_Z 32 (h_checksum h).

(** The [w]-bit field at bit offset [off]. *)
Definition field (off w : nat) (bits : list bool) : Z :=
  Z_of_bits w (firstn w (skipn off bits)).

(** Modelled from the spec: the parser of the missing header codec. [None] is
    the "not found" outcome: the magic marker does not match, or the depth or
    the mask read back is not one an encoder can have written. *)
Definition parse_header (bits : list bool) : option Header :=
  let mb := 8 * List.length magic in
  if bits_eqb (firstn mb bits) (bytes_to_bits magic) then
    let bpc := Z.to_nat (field (mb + 16) 8 bits) in
    let m := mask_of_Z (field (mb + 24) 8 bits) in
    if (1 <=? bpc) && (bpc <=? 8) && mask_nonempty m then
      Some (mkHeader (field mb 8 bits)
                     (flags_of_Z (field (mb + 8) 8 bits))
                     bpc m
                     (Z.to_nat (field (mb + 32) 32 bits))
                     (field (mb + 64) 32 bits))
    else None
  else None.

(** The headers an encoder writes: every field within its width. *)
Definition header_ok (h : Header) : Prop :=
  (0 <= version h < 2 ^ 8)%Z /\
  1 <= h_bits_per_channel h <= 8 /\
  mask_nonempty (h_channel_mask h) = true /\
  (Z.of_nat (payload_length h) < 2 ^ 32)%Z /\
  (0 <= h_checksum h < 2 ^ 32)%Z.

(** Modelled from the spec: [read_header] of the missing header codec, always
    at one bit per channel over R, G, B from the first pixel. *)
Definition read_header (px : list Pixel) : option Header :=
  match unpack px RGB 1 0 header_bits with
  | Some bits => parse_header bits
  | None => None
  end.

(** *** Capacity calculator (section 4.2) *)

(** Modelled from the spec: [raw_bits] of the missing capacity calculator,
    [width * height * |channel_mask| * bits_per_channel]. *)
Definition raw_bits (w h : nat) (m : ChannelMask) (b : nat) : Z :=
  Z.of_nat (w * h * mask_count m * b).

(** Modelled from the spec: [capacity] of the missing capacity calculator,
    [floor((raw_bits - header_bits_reserved) / 8) - safety_margin]. *)
Definition capacity (w h : nat) (m : ChannelMask) (b : nat) : Z :=
  ((raw_bits w h m b - header_bits_reserved) / 8 - safety_margin)%Z.

(** Modelled from the spec: the depth sweep (1..8) of the missing capacity
    report. *)
Definition capacity_table (w h : nat) (m : ChannelMask) : list (nat * Z) :=
  map (fun b => (b, capacity w h m b)) (seq 1 8).

(** *** Payload transform pipeline (section 4.3) *)

(** Modelled from the spec: the three optional stages of the missing
    pipeline, each the identity when it is switched off. *)
Definition stage_compress (c : bool) (p : list byte) : list byte :=
  if c then compress_bytes p else p.

Definition stage_encrypt (pw : option (list byte)) (rnd : Entropy)
    (p : list byte) : list byte :=
  match pw with
  | Some k => seal k (salt rnd) (nonce rnd) p
  | None => p
  end.

Definition stage_error_correct (l : ErrorCorrection) (p : list byte)
    : list byte :=
  match l with
  | ec_none => p
  | _ => ec_encode l p
  end.

Definition is_some {A} (o : option A) : bool :=
  match o with Some _ => true | None => false end.

Definition ec_enabled (l : ErrorCorrection) : bool :=
  match l with ec_none => false | _ => true end.

(** Modelled from the spec: the flags the missing encoder records, one per
    stage that is present. *)
Definition flags_of_params (ps : Params) : Flags :=
  mkFlags (compress ps) (is_some (password ps))
          (ec_enabled (error_correction ps)).

(** Modelled from the spec: the encode side of the missing pipeline, in the
    order compress, encrypt, error-correct. *)
Definition transform_payload (ps : Params) (rnd : Entropy) (p : list byte)
    : M (list byte) :=
  p1 <- (if compress ps
         then enter SCompress ;; ret (compress_bytes p)
         else ret p) ;;
  p2 <- (match password ps with
         | Some k => enter SEncrypt ;; ret (seal k (salt rnd) (nonce rnd) p1)
         | None => ret p1
         end) ;;
  match error_correction ps with
  | ec_none => ret p2
  | l => enter SErrorCorrect ;; ret (ec_encode l p2)
  end.

(** The pipeline as the specification words it, a plain composition: each
    stage's output is the next stage's input. *)
Definition transform (ps : Params) (rnd : Entropy) (p : list byte)
    : list byte :=
  stage_error_correct (error_correction ps)
    (stage_encrypt (password ps) rnd
       (stage_compress (compress ps) p)).

(** The stages the specification's order predicts for an encode and for a
    decode, given which of them are enabled. *)
Definition transform_trace (f : Flags) : list Stage :=
  (if compressed f then [SCompress] else []) ++
  (if encrypted f then [SEncrypt] else []) ++
  (if error_corrected f then [SErrorCorrect] else []).

Definition inverse_trace (f : Flags) : list Stage :=
  (if error_corrected f then [SInvertErrorCorrection] else []) ++
  (if encrypted f then [SDecrypt] else []) ++
  (if compressed f then [SDecompress] else []).

Definition encode_trace (f : Flags) : list Stage :=
  [SValidate] ++ transform_trace f ++
  [SMeasure; SCheckCapacity; SWriteHeader; SWritePayload].

Definition decode_prefix : list Stage :=
  [SReadHeader; SReadPayload; SVerifyChecksum].

(** Modelled from the spec: the decode side of the missing pipeline, the
    inverses selected by the header flags, in reverse order. *)
Definition invert_error_correction (h : Header) (t : list byte)
    : M (list byte) :=
  if error_corrected (flags h)
  then enter SInvertErrorCorrection ;; or_fail CorruptPayloadError (ec_decode t)
  else ret t.

Definition invert_encryption (h : Header) (pw : option (list byte))
    (t : list byte) : M (list byte) :=
  if encrypted (flags h)
  then enter SDecrypt ;;
       match pw with
       | Some k => or_fail DecryptionError (open k t)
       | None => fail DecryptionError
       end
  else ret t.

(** The cipher's verdict on an envelope under the password a decode was
    given: the plaintext it returns, or [None] when the tag verification
    refuses (and when there is no password to try). *)
Definition open_under (pw : option (list byte)) (envelope : list byte)
    : option (list byte) :=
  match pw with
  | Some k => open k envelope
  | None => None
  end.

Definition invert_compression (h : Header) (t : list byte) : M (list byte) :=
  if compressed (flags h)
  then enter SDecompress ;; or_fail CorruptPayloadError (decompress_bytes t)
  else ret t.

Definition invert_pipeline (h : Header) (pw : option (list byte))
    (t : list byte) : M (list byte) :=
  t1 <- invert_error_correction h t ;;
  t2 <- invert_encryption h pw t1 ;;
  invert_compression h t2.

(** *** Codec orchestrator (section 4.6) *)

(** Modelled from the spec: the input validation of the missing orchestrator:
    a depth in 1..8, a non-empty mask, a raster of width x height pixels. *)
Definition params_ok (ps : Params) : bool :=
  (1 <=? bits_per_channel ps) && (bits_per_channel ps <=? 8) &&
  mask_nonempty (channel_mask ps).

Definition image_ok (img : Image) : bool :=
  List.length (pixels img) =? width img * height img.

Definition validate (img : Image) (ps : Params) : M unit :=
  enter SValidate ;;
  if params_ok ps && image_ok img then ret tt else fail InvalidParameterError.

(** The header an encode writes for a transformed payload [t]. *)
Definition header_for (ps : Params) (t : list byte) : Header :=
  mkHeader FORMAT_VERSION (flags_of_params ps) (bits_per_channel ps)
           (channel_mask ps) (List.length t) (checksum32 t).

(** Modelled from the spec: the length-and-checksum step of the missing
    orchestrator. *)
Definition measure (ps : Params) (t : list byte) : M Header :=
  enter SMeasure ;;
  ret (header_for ps t).

(** Modelled from the spec: the fit test of the missing encoder: the capacity
    calculator's figure, and a length the 32-bit field of the header can
    hold. *)
Definition fits (img : Image) (ps : Params) (len : nat) : bool :=
  (Z.of_nat len <=? capacity (width img) (height img) (channel_mask ps)
                             (bits_per_channel ps))%Z &&
  (Z.of_nat len <? 2 ^ 32)%Z.

(** Whether the image offers the slots the two writes of an encode need: the
    header's bits at one bit over R, G, B from the first pixel, and the
    payload's bits behind the header's pixels at the configured depth and
    mask. These are the two tests [pack] makes. *)
Definition has_room (img : Image) (ps : Params) (len : nat) : bool :=
  (header_bits <=? List.length (pixels img) * 3) &&
  (8 * len <=? (List.length (pixels img) - header_pixels) *
               (mask_count (channel_mask ps) * bits_per_channel ps)).

Definition check_capacity (img : Image) (ps : Params) (h : Header) : M unit :=
  enter SCheckCapacity ;;
  if fits img ps (payload_length h) then ret tt
  else fail CapacityExceededError.

(** Modelled from the spec: the two write steps of the missing orchestrator,
    the header at one bit over R, G, B from the first pixel, the payload
    behind it at the configured depth and mask. *)
Definition write_header_step (h : Header) : M unit :=
  enter SWriteHeader ;;
  buf <- get_buffer ;;
  buf' <- lift (pack (write_header h) buf RGB 1 0) ;;
  put_buffer buf'.

Definition write_payload_step (ps : Params) (t : list byte) : M unit :=
  enter SWritePayload ;;
  buf <- get_buffer ;;
  buf' <- lift (pack (bytes_to_bits t) buf (channel_mask ps)
                     (bits_per_channel ps) header_pixels) ;;
  put_buffer buf'.

(** Modelled from the spec: the encode sequence of the missing orchestrator,
    Validate, Transform, Compute length and checksum, Check capacity, Write
    header, Write payload. *)
Definition encode_run (img : Image) (ps : Params) (rnd : Entropy)
    (payload : list byte) : M unit :=
  validate img ps ;;
  t <- transform_payload ps rnd payload ;;
  h <- measure ps t ;;
  check_capacity img ps h ;;
  write_header_step h ;;
  write_payload_step ps t.

(** Modelled from the spec: [encode] of the missing orchestrator. It works on
    a copy of the source pixels and hands out an image only when every step
    has succeeded. *)
Definition encode (img : Image) (ps : Params) (rnd : Entropy)
    (payload : list byte) : result Image :=
  match encode_run img ps rnd payload (start (pixels img)) with
  | (Ok _, m) => Ok (mkImage (width img) (height img) (buffer m))
  | (Err e, _) => Err e
  end.

(** Modelled from the spec: the read steps of the missing orchestrator. No
    header means no hidden data; another version is not supported; a payload
    that cannot be read in full, or whose checksum differs, is corrupt. *)
Definition read_header_step : M Header :=
  enter SReadHeader ;;
  buf <- get_buffer ;;
  h <- or_fail NoHiddenDataError (read_header buf) ;;
  if (version h =? FORMAT_VERSION)%Z then ret h
  else fail UnsupportedCombinationError.

Definition read_payload_step (h : Header) : M (list byte) :=
  enter SReadPayload ;;
  buf <- get_buffer ;;
  bits <- or_fail CorruptPayloadError
            (unpack buf (h_channel_mask h) (h_bits_per_channel h)
                    header_pixels (8 * payload_length h)) ;;
  ret (bits_to_bytes bits).

Definition verify_checksum_step (h : Header) (t : list byte) : M unit :=
  enter SVerifyChecksum ;;
  if (checksum32 t =? h_checksum h)%Z then ret tt
  else fail CorruptPayloadError.

(** Modelled from the spec: the decode sequence of the missing orchestrator,
    Read header, Read payload, Verify checksum, Invert error-correction,
    Invert encryption, Invert compression. *)
Definition decode_run (pw : option (list byte)) : M (list byte) :=
  h <- read_header_step ;;
  t <- read_payload_step h ;;
  verify_checksum_step h t ;;
  invert_pipeline h pw t.

(** Modelled from the spec: [decode] of the missing orchestrator; its only
    inputs are the image and the optional password. *)
Definition decode (img : Image) (pw : option (list byte))
    : result (list byte) :=
  fst (decode_run pw (start (pixels img))).

(** What the model asks of the stages the specification leaves open: each
    inverse undoes its stage. *)
Hypothesis decompress_compress :
  forall p, decompress_bytes (compress_bytes p) = Some p.
Hypothesis open_seal :
  forall k s n p, open k (seal k s n p) = Some p.
Hypothesis ec_decode_encode :
  forall l p, ec_decode (ec_encode l p) = Some p.

(* ------------------------------------------------------------------ *)
(** *** Facts about single values                                      *)
(* ------------------------------------------------------------------ *)

Lemma testbit_set_bit (v : Z) (i j : nat) (x : bool) :
  Z.testbit (set_bit v i x) (Z.of_nat j) =
  if j =? i then x else Z.testbit v (Z.of_nat j).
Proof.
  unfold set_bit. destruct x.
  - rewrite Z.setbit_eqb by lia.
    destruct (Nat.eqb_spec j i) as [->|Hne].
    + now rewrite Z.eqb_refl.
    + destruct (Z.eqb_spec (Z.of_nat i) (Z.of_nat j)); [lia | reflexivity].
  - rewrite Z.clearbit_eqb.
    destruct (Nat.eqb_spec j i) as [->|Hne].
    + rewrite Z.eqb_refl. apply andb_false_r.
    + destruct (Z.eqb_spec (Z.of_nat i) (Z.of_nat j)); [lia | apply andb_true_r].
Qed.

Lemma length_read_low (b : nat) (v : Z) : List.length (read_low b v) = b.
Proof. induction b; simpl; congruence. Qed.

Lemma read_low_ext (b : nat) (v v' : Z) :
  (forall j, j < b -> Z.testbit v (Z.of_nat j) = Z.testbit v' (Z.of_nat j)) ->
  read_low b v = read_low b v'.
Proof.
  induction b as [|b IH]; intros H; simpl; [reflexivity|].
  rewrite (H b) by lia. f_equal. apply IH. intros j Hj. apply H. lia.
Qed.

(** Writing the low [b] bits leaves every higher bit alone. *)
Lemma write_low_high (b : nat) : forall v bits j,
  b <= j ->
  Z.testbit (fst (write_low b v bits)) (Z.of_nat j) = Z.testbit v (Z.of_nat j).
Proof.
  induction b as [|b IH]; intros v bits j Hj; simpl; [reflexivity|].
  destruct bits as [|x rest]; simpl; [reflexivity|].
  rewrite IH by lia. rewrite testbit_set_bit.
  destruct (Nat.eqb_spec j b); [lia | reflexivity].
Qed.

Lemma write_low_rest (b : nat) : forall v bits,
  snd (write_low b v bits) = skipn b bits.
Proof.
  induction b as [|b IH]; intros v bits; simpl; [reflexivity|].
  destruct bits as [|x rest]; simpl; [reflexivity | apply IH].
Qed.

Lemma overwrite_nil (old : list bool) : overwrite [] old = old.
Proof. destruct old; reflexivity. Qed.

Lemma length_overwrite (new old : list bool) :
  List.length (overwrite new old) = List.length old.
Proof.
  revert new. induction old as [|o old IH]; intros new; simpl; [reflexivity|].
  destruct new; simpl; [reflexivity | now rewrite IH].
Qed.

Lemma overwrite_app (o1 o2 : list bool) : forall new,
  overwrite new (o1 ++ o2) =
  overwrite new o1 ++ overwrite (skipn (List.length o1) new) o2.
Proof.
  induction o1 as [|a o1 IH]; intros new; simpl.
  - reflexivity.
  - destruct new as [|x new]; simpl.
    + now rewrite overwrite_nil.
    + now rewrite IH.
Qed.

(** Bits that fit are read back as written. *)
Lemma firstn_overwrite (old : list bool) : forall new,
  List.length new <= List.length old ->
  firstn (List.length new) (overwrite new old) = new.
Proof.
  induction old as [|o old IH]; intros new Hlen.
  - destruct new; simpl in *; [reflexivity | lia].
  - destruct new as [|x new]; simpl in *; [reflexivity|].
    f_equal. apply IH. lia.
Qed.

Lemma read_write_low (b : nat) : forall v bits,
  read_low b (fst (write_low b v bits)) = overwrite bits (read_low b v).
Proof.
  induction b as [|b IH]; intros v bits; simpl; [reflexivity|].
  destruct bits as [|x rest]; simpl; [reflexivity|].
  rewrite write_low_high by lia. rewrite testbit_set_bit, Nat.eqb_refl.
  f_equal. rewrite IH. f_equal.
  apply read_low_ext. intros j Hj. rewrite testbit_set_bit.
  destruct (Nat.eqb_spec j b); [lia | reflexivity].
Qed.

(* ------------------------------------------------------------------ *)
(** *** Facts about pixels and rasters                                 *)
(* ------------------------------------------------------------------ *)

Lemma get_set_same (p : Pixel) (c : Channel) (v : Z) :
  get_channel (set_channel p c v) c = v.
Proof. destruct c; reflexivity. Qed.

Lemma get_set_other (p : Pixel) (c c' : Channel) (v : Z) :
  c <> c' -> get_channel (set_channel p c v) c' = get_channel p c'.
Proof. destruct c, c'; simpl; congruence. Qed.

Lemma alpha_set_channel (p : Pixel) (c : Channel) (v : Z) :
  alpha (set_channel p c v) = alpha p.
Proof. destruct c; reflexivity. Qed.

Lemma mask_channels_NoDup (m : ChannelMask) : NoDup (mask_channels m).
Proof.
  destruct m as [[] [] []]; cbv [mask_channels useR useG useB app];
    repeat constructor; simpl; intuition congruence.
Qed.

Lemma mask_count_le (m : ChannelMask) : mask_count m <= 3.
Proof. destruct m as [[] [] []]; cbv; lia. Qed.

Lemma mask_count_pos (m : ChannelMask) :
  mask_nonempty m = true -> 1 <= mask_count m.
Proof. destruct m as [[] [] []]; cbv; intros; try lia; discriminate. Qed.

Lemma write_pixel_other (b : nat) (chs : list Channel) : forall p bits c,
  ~ In c chs ->
  get_channel (fst (write_pixel chs b p bits)) c = get_channel p c.
Proof.
  induction chs as [|c0 cs IH]; intros p bits c Hc; simpl; [reflexivity|].
  destruct (write_low b (get_channel p c0) bits) as [v rest].
  rewrite IH by (simpl in Hc; tauto).
  apply get_set_other. simpl in Hc. intros ->. tauto.
Qed.

(** The alpha channel is never touched. *)
Lemma write_pixel_alpha (b : nat) (chs : list Channel) : forall p bits,
  alpha (fst (write_pixel chs b p bits)) = alpha p.
Proof.
  induction chs as [|c0 cs IH]; intros p bits; simpl; [reflexivity|].
  destruct (write_low b (get_channel p c0) bits) as [v rest].
  rewrite IH. apply alpha_set_channel.
Qed.

Lemma read_pixel_set_other (b : nat) (chs : list Channel) (p : Pixel)
    (c : Channel) (v : Z) :
  ~ In c chs -> read_pixel chs b (set_channel p c v) = read_pixel chs b p.
Proof.
  unfold read_pixel. induction chs as [|c0 cs IH]; intros Hc; simpl;
    [reflexivity|].
  rewrite get_set_other by (simpl in Hc; intros ->; tauto).
  f_equal. apply IH. simpl in Hc. tauto.
Qed.

Lemma length_read_pixel (chs : list Channel) (b : nat) (p : Pixel) :
  List.length (read_pixel chs b p) = List.length chs * b.
Proof.
  unfold read_pixel. induction chs as [|c cs IH]; simpl; [reflexivity|].
  rewrite length_app, length_read_low, IH. reflexivity.
Qed.

Lemma write_pixel_rest (b : nat) (chs : list Channel) : forall p bits,
  snd (write_pixel chs b p bits) = skipn (List.length chs * b) bits.
Proof.
  induction chs as [|c cs IH]; intros p bits; simpl; [reflexivity|].
  pose proof (write_low_rest b (get_channel p c) bits) as Hr.
  destruct (write_low b (get_channel p c) bits) as [v rest]. simpl in Hr.
  rewrite IH, Hr, skipn_skipn. f_equal. lia.
Qed.

Lemma read_write_pixel (b : nat) (chs : list Channel) : forall p bits,
  NoDup chs ->
  read_pixel chs b (fst (write_pixel chs b p bits)) =
  overwrite bits (read_pixel chs b p).
Proof.
  induction chs as [|c cs IH]; intros p bits Hnd.
  - simpl. reflexivity.
  - inversion Hnd as [|? ? Hnotin Hnd']; subst.
    change (read_pixel (c :: cs) b p)
      with (read_low b (get_channel p c) ++ read_pixel cs b p).
    rewrite overwrite_app, length_read_low.
    simpl write_pixel.
    pose proof (read_write_low b (get_channel p c) bits) as Hrw.
    pose proof (write_low_rest b (get_channel p c) bits) as Hr.
    destruct (write_low b (get_channel p c) bits) as [v rest].
    simpl in Hrw, Hr. subst rest.
    change (read_pixel (c :: cs) b ?q)
      with (read_low b (get_channel q c) ++ read_pixel cs b q).
    rewrite write_pixel_other, get_set_same by assumption.
    rewrite Hrw. f_equal.
    rewrite IH by assumption. f_equal.
    now apply read_pixel_set_other.
Qed.

Lemma length_read_pixels (chs : list Channel) (b : nat) (px : list Pixel) :
  List.length (read_pixels chs b px) = List.length px * (List.length chs * b).
Proof.
  unfold read_pixels. induction px as [|p ps IH]; simpl; [reflexivity|].
  rewrite length_app, length_read_pixel, IH. reflexivity.
Qed.

Lemma read_pixels_app (chs : list Channel) (b : nat) (p1 p2 : list Pixel) :
  read_pixels chs b (p1 ++ p2) = read_pixels chs b p1 ++ read_pixels chs b p2.
Proof. unfold read_pixels. apply flat_map_app. Qed.

Lemma length_write_pixels (chs : list Channel) (b : nat) : forall px bits,
  List.length (fst (write_pixels chs b px bits)) = List.length px.
Proof.
  induction px as [|p ps IH]; intros bits; simpl; [reflexivity|].
  destruct (write_pixel chs b p bits) as [p' rest].
  specialize (IH rest).
  destruct (write_pixels chs b ps rest) as [ps' rest']. simpl in *. congruence.
Qed.

(** The packer's round trip on a whole raster: what is read after a write is
    the old content with the written bits laid over its front. *)
Lemma read_write_pixels (chs : list Channel) (b : nat) : forall px bits,
  NoDup chs ->
  read_pixels chs b (fst (write_pixels chs b px bits)) =
  overwrite bits (read_pixels chs b px).
Proof.
  induction px as [|p ps IH]; intros bits Hnd.
  - simpl. reflexivity.
  - change (read_pixels chs b (p :: ps))
      with (read_pixel chs b p ++ read_pixels chs b ps).
    rewrite overwrite_app, length_read_pixel.
    simpl write_pixels.
    pose proof (read_write_pixel b chs p bits Hnd) as Hrw.
    pose proof (write_pixel_rest b chs p bits) as Hr.
    destruct (write_pixel chs b p bits) as [p' rest]. simpl in Hrw, Hr.
    specialize (IH rest Hnd).
    destruct (write_pixels chs b ps rest) as [ps' rest']. simpl in *.
    change (read_pixels chs b (p' :: ps'))
      with (read_pixel chs b p' ++ read_pixels chs b ps').
    rewrite Hrw, IH, Hr. reflexivity.
Qed.

(** The pixels written in an image keep their alpha. *)
Lemma write_pixels_alpha (chs : list Channel) (b : nat) : forall px bits,
  map alpha (fst (write_pixels chs b px bits)) = map alpha px.
Proof.
  induction px as [|p ps IH]; intros bits; simpl; [reflexivity|].
  pose proof (write_pixel_alpha b chs p bits) as Ha.
  destruct (write_pixel chs b p bits) as [p' rest].
  specialize (IH rest).
  destruct (write_pixels chs b ps rest) as [ps' rest']. simpl in *.
  congruence.
Qed.

(* ------------------------------------------------------------------ *)
(** *** Facts about [pack] and [unpack]                                *)
(* ------------------------------------------------------------------ *)

Lemma pack_Ok_inv (bits : list bool) (px px' : list Pixel) (m : ChannelMask)
    (b s : nat) :
  pack bits px m b s = Ok px' ->
  List.length bits <= (List.length px - s) * (mask_count m * b) /\
  px' = firstn s px ++
        fst (write_pixels (mask_channels m) b (skipn s px) bits).
Proof.
  unfold pack.
  destruct (Nat.leb_spec (List.length bits)
              ((List.length px - s) * (mask_count m * b))); [|discriminate].
  intros [= <-]. split; [assumption | reflexivity].
Qed.

Lemma pack_fits (bits : list bool) (px : list Pixel) (m : ChannelMask)
    (b s : nat) :
  List.length bits <= (List.length px - s) * (mask_count m * b) ->
  pack bits px m b s =
  Ok (firstn s px ++ fst (write_pixels (mask_channels m) b (skipn s px) bits)).
Proof.
  intros H. unfold pack.
  destruct (Nat.leb_spec (List.length bits)
              ((List.length px - s) * (mask_count m * b))); [reflexivity | lia].
Qed.

Lemma pack_length (bits : list bool) (px px' : list Pixel) (m : ChannelMask)
    (b s : nat) :
  pack bits px m b s = Ok px' -> List.length px' = List.length px.
Proof.
  intros H. apply pack_Ok_inv in H as [_ ->].
  rewrite length_app, length_write_pixels, <- length_app, firstn_skipn.
  reflexivity.
Qed.

(** Frame: the pixels before the start offset are not touched. *)
Lemma pack_firstn (bits : list bool) (px px' : list Pixel) (m : ChannelMask)
    (b s : nat) :
  pack bits px m b s = Ok px' -> firstn s px' = firstn s px.
Proof.
  intros H. apply pack_Ok_inv in H as [_ ->].
  destruct (Nat.le_gt_cases s (List.length px)) as [Hle|Hgt].
  - rewrite firstn_app, length_firstn, Nat.min_l by assumption.
    rewrite Nat.sub_diag, firstn_firstn, Nat.min_id. simpl.
    apply app_nil_r.
  - rewrite skipn_all2 by lia. simpl. rewrite app_nil_r.
    now rewrite firstn_firstn, Nat.min_id.
Qed.

Lemma pack_alpha (bits : list bool) (px px' : list Pixel) (m : ChannelMask)
    (b s : nat) :
  pack bits px m b s = Ok px' -> map alpha px' = map alpha px.
Proof.
  intros H. apply pack_Ok_inv in H as [_ ->].
  rewrite map_app, write_pixels_alpha, <- map_app, firstn_skipn. reflexivity.
Qed.

(** The packer's round trip: what [pack] wrote, [unpack] reads. *)
Lemma unpack_pack (bits : list bool) (px px' : list Pixel) (m : ChannelMask)
    (b s : nat) :
  pack bits px m b s = Ok px' ->
  unpack px' m b s (List.length bits) = Some bits.
Proof.
  intros H. apply pack_Ok_inv in H as [Hfit ->]. unfold unpack.
  destruct (Nat.le_gt_cases s (List.length px)) as [Hle|Hgt].
  - rewrite skipn_app, length_firstn, Nat.min_l, Nat.sub_diag by assumption.
    rewrite (skipn_all2 (firstn s px)) by (rewrite length_firstn; lia).
    simpl app.
    rewrite read_write_pixels by apply mask_channels_NoDup.
    rewrite length_overwrite, length_read_pixels, length_skipn.
    fold (mask_count m).
    destruct (Nat.leb_spec (List.length bits)
                ((List.length px - s) * (mask_count m * b))); [|lia].
    f_equal. apply firstn_overwrite.
    rewrite length_read_pixels, length_skipn. assumption.
  - replace (List.length px - s) with 0 in Hfit by lia. simpl in Hfit.
    destruct bits; [|simpl in Hfit; lia]. reflexivity.
Qed.

(** The first [c] bits of a raster are held by its first [k] pixels as soon as
    those offer [c] slots. *)
Lemma unpack_prefix (m : ChannelMask) (b k c : nat) (px px' : list Pixel) :
  k <= List.length px ->
  List.length px' = List.length px ->
  firstn k px' = firstn k px ->
  c <= k * (mask_count m * b) ->
  unpack px' m b 0 c = unpack px m b 0 c.
Proof.
  intros Hk Hlen Hpre Hc. unfold unpack. simpl skipn.
  rewrite !length_read_pixels, Hlen.
  destruct (c <=? List.length px * (List.length (mask_channels m) * b));
    [|reflexivity].
  f_equal.
  rewrite <- (firstn_skipn k px'), <- (firstn_skipn k px) at 1.
  rewrite !read_pixels_app, Hpre.
  rewrite !firstn_app.
  rewrite length_read_pixels, length_firstn, Nat.min_l by assumption.
  fold (mask_count m).
  replace (c - k * (mask_count m * b)) with 0 by lia.
  reflexivity.
Qed.

(* ------------------------------------------------------------------ *)
(** *** Facts about bytes, numbers and the header layout               *)
(* ------------------------------------------------------------------ *)

Lemma length_byte_to_bits (x : byte) : List.length (byte_to_bits x) = 8.
Proof.
  unfold byte_to_bits.
  destruct (Byte.to_bits x) as (b0 & b1 & b2 & b3 & b4 & b5 & b6 & b7).
  reflexivity.
Qed.

Lemma length_bytes_to_bits (l : list byte) :
  List.length (bytes_to_bits l) = 8 * List.length l.
Proof.
  unfold bytes_to_bits. induction l as [|x l IH]; [reflexivity|].
  cbn [flat_map List.length]. rewrite length_app, length_byte_to_bits, IH. lia.
Qed.

Lemma bits_to_bytes_to_bits (l : list byte) :
  bits_to_bytes (bytes_to_bits l) = l.
Proof.
  unfold bytes_to_bits. induction l as [|x l IH]; [reflexivity|].
  cbn [flat_map]. unfold byte_to_bits at 1.
  destruct (Byte.to_bits x) as (b0 & b1 & b2 & b3 & b4 & b5 & b6 & b7) eqn:E.
  cbn [app bits_to_bytes]. rewrite IH, <- E, Byte.of_bits_to_bits.
  reflexivity.
Qed.

Lemma bits_eqb_refl (a : list bool) : bits_eqb a a = true.
Proof.
  induction a as [|x a IH]; simpl; [reflexivity|].
  now rewrite IH, Bool.eqb_reflx.
Qed.

Lemma bits_eqb_eq (a : list bool) : forall b, bits_eqb a b = true -> a = b.
Proof.
  induction a as [|x a IH]; intros [|y b] H; simpl in H;
    try discriminate; [reflexivity|].
  apply andb_prop in H as [Hxy Hab].
  apply Bool.eqb_prop in Hxy. f_equal; auto.
Qed.

Lemma testbit_write_read (w : nat) : forall v n i,
  Z.testbit (fst (write_low w v (read_low w n))) (Z.of_nat i) =
  if i <? w then Z.testbit n (Z.of_nat i) else Z.testbit v (Z.of_nat i).
Proof.
  induction w as [|w IH]; intros v n i; simpl read_low; simpl write_low.
  - reflexivity.
  - rewrite IH, testbit_set_bit.
    destruct (Nat.ltb_spec i w), (Nat.ltb_spec i (S w)), (Nat.eqb_spec i w);
      subst; try lia; reflexivity.
Qed.

(** A number that fits its field is read back unchanged. *)
Lemma Z_of_bits_of_Z (w : nat) (n : Z) :
  (0 <= n < 2 ^ Z.of_nat w)%Z -> Z_of_bits w (bits_of_Z w n) = n.
Proof.
  intros Hn. unfold Z_of_bits, bits_of_Z. apply Z.bits_inj'. intros i Hi.
  rewrite <- (Z2Nat.id i) by assumption.
  rewrite testbit_write_read.
  destruct (Nat.ltb_spec (Z.to_nat i) w); [reflexivity|].
  rewrite Z.testbit_0_l. symmetry.
  rewrite <- (Z.mod_small n (2 ^ Z.of_nat w)) by assumption.
  apply Z.mod_pow2_bits_high. lia.
Qed.

Lemma length_bits_of_Z (w : nat) (n : Z) : List.length (bits_of_Z w n) = w.
Proof. apply length_read_low. Qed.

Lemma field_at (pre post : list bool) (w : nat) (n : Z) (off : nat) :
  off = List.length pre ->
  (0 <= n < 2 ^ Z.of_nat w)%Z ->
  field off w (pre ++ bits_of_Z w n ++ post) = n.
Proof.
  intros -> Hn. unfold field.
  rewrite skipn_app, skipn_all, Nat.sub_diag. simpl.
  rewrite firstn_app, length_bits_of_Z, Nat.sub_diag, firstn_O, app_nil_r.
  rewrite firstn_all2 by (rewrite length_bits_of_Z; lia).
  now apply Z_of_bits_of_Z.
Qed.

Lemma flags_of_to_Z (f : Flags) : flags_of_Z (flags_to_Z f) = f.
Proof. destruct f as [[] [] []]; reflexivity. Qed.

Lemma flags_to_Z_range (f : Flags) : (0 <= flags_to_Z f < 2 ^ 8)%Z.
Proof. destruct f as [[] [] []]; cbv; split; congruence. Qed.

Lemma mask_of_to_Z (m : ChannelMask) : mask_of_Z (mask_to_Z m) = m.
Proof. destruct m as [[] [] []]; reflexivity. Qed.

Lemma mask_to_Z_range (m : ChannelMask) : (0 <= mask_to_Z m < 2 ^ 8)%Z.
Proof. destruct m as [[] [] []]; cbv; split; congruence. Qed.

Lemma length_write_header (h : Header) :
  List.length (write_header h) = header_bits.
Proof.
  unfold write_header, header_bits.
  rewrite !length_app, length_bytes_to_bits, !length_bits_of_Z. lia.
Qed.

(** The header codec's round trip. *)
Lemma parse_write_header (h : Header) :
  header_ok h -> parse_header (write_header h) = Some h.
Proof.
  intros (Hv & Hb & Hm & Hl & Hc).
  pose proof (flags_to_Z_range (flags h)) as Hf.
  pose proof (mask_to_Z_range (h_channel_mask h)) as Hmr.
  set (mb := 8 * List.length magic).
  assert (Hmb : List.length (bytes_to_bits magic) = mb)
    by apply length_bytes_to_bits.
  unfold parse_header. fold mb.
  assert (Hmagic : firstn mb (write_header h) = bytes_to_bits magic).
  { unfold write_header. rewrite firstn_app, Hmb, Nat.sub_diag, firstn_O.
    rewrite app_nil_r. apply firstn_all2. lia. }
  rewrite Hmagic, bits_eqb_refl.
  set (fv := bits_of_Z 8 (version h)).
  set (ff := bits_of_Z 8 (flags_to_Z (flags h))).
  set (fb := bits_of_Z 8 (Z.of_nat (h_bits_per_channel h))).
  set (fm := bits_of_Z 8 (mask_to_Z (h_channel_mask h))).
  set (fl := bits_of_Z 32 (Z.of_nat (payload_length h))).
  set (fc := bits_of_Z 32 (h_checksum h)).
  assert (Lv : List.length fv = 8) by apply length_bits_of_Z.
  assert (Lf : List.length ff = 8) by apply length_bits_of_Z.
  assert (Lb : List.length fb = 8) by apply length_bits_of_Z.
  assert (Lm : List.length fm = 8) by apply length_bits_of_Z.
  assert (Ll : List.length fl = 32) by apply length_bits_of_Z.
  assert (F1 : field mb 8 (write_header h) = version h).
  { unfold write_header. apply field_at; [now rewrite Hmb | exact Hv]. }
  assert (F2 : field (mb + 8) 8 (write_header h) = flags_to_Z (flags h)).
  { replace (write_header h)
      with ((bytes_to_bits magic ++ fv) ++ ff ++ (fb ++ fm ++ fl ++ fc))
      by (unfold write_header; now rewrite <- !app_assoc).
    apply field_at; [|exact Hf]. rewrite !length_app. lia. }
  assert (F3 : field (mb + 16) 8 (write_header h) =
               Z.of_nat (h_bits_per_channel h)).
  { replace (write_header h)
      with ((bytes_to_bits magic ++ fv ++ ff) ++ fb ++ (fm ++ fl ++ fc))
      by (unfold write_header; now rewrite <- !app_assoc).
    apply field_at; [|change (2 ^ Z.of_nat 8)%Z with 256%Z; lia].
    rewrite !length_app. lia. }
  assert (F4 : field (mb + 24) 8 (write_header h) =
               mask_to_Z (h_channel_mask h)).
  { replace (write_header h)
      with ((bytes_to_bits magic ++ fv ++ ff ++ fb) ++ fm ++ (fl ++ fc))
      by (unfold write_header; now rewrite <- !app_assoc).
    apply field_at; [|exact Hmr]. rewrite !length_app. lia. }
  assert (F5 : field (mb + 32) 32 (write_header h) =
               Z.of_nat (payload_length h)).
  { replace (write_header h)
      with ((bytes_to_bits magic ++ fv ++ ff ++ fb ++ fm) ++ fl ++ fc)
      by (unfold write_header; now rewrite <- !app_assoc).
    apply field_at; [|change (2 ^ Z.of_nat 32)%Z with (2 ^ 32)%Z; lia].
    rewrite !length_app. lia. }
  assert (F6 : field (mb + 64) 32 (write_header h) = h_checksum h).
  { replace (write_header h)
      with ((bytes_to_bits magic ++ fv ++ ff ++ fb ++ fm ++ fl) ++ fc ++ [])
      by (unfold write_header; now rewrite <- !app_assoc, app_nil_r).
    apply field_at; [|exact Hc]. rewrite !length_app. lia. }
  rewrite F1, F2, F3, F4, F5, F6.
  rewrite flags_of_to_Z, mask_of_to_Z, !Nat2Z.id, Hm.
  destruct (Nat.leb_spec 1 (h_bits_per_channel h)); [|lia].
  destruct (Nat.leb_spec (h_bits_per_channel h) 8); [|lia].
  simpl. destruct h; reflexivity.
Qed.

(* ------------------------------------------------------------------ *)
(** *** Facts about the pipeline                                       *)
(* ------------------------------------------------------------------ *)

Ltac run_machine :=
  cbv [bind enter ret fail get_buffer put_buffer lift or_fail buffer trace].

(** The encode side of the pipeline computes the composition, and enters the
    enabled stages in the order compress, encrypt, error-correct. *)
Lemma transform_payload_run (ps : Params) (rnd : Entropy) (p : list byte)
    (m : Machine) :
  transform_payload ps rnd p m =
  (Ok (transform ps rnd p),
   mkMachine (buffer m) (trace m ++ transform_trace (flags_of_params ps))).
Proof.
  destruct m as [buf tr], ps as [b mk c pw l].
  unfold transform_payload, transform, transform_trace, flags_of_params.
  destruct c, pw as [k|], l; run_machine; simpl;
    rewrite <- ?app_assoc, ?app_nil_r; reflexivity.
Qed.

(** On what a transform produced, the inverses selected by the flags give the
    payload back, entered in the order error-correction, decryption,
    decompression. *)
Lemma invert_pipeline_transform (ps : Params) (rnd : Entropy)
    (p : list byte) (h : Header) (m : Machine) :
  flags h = flags_of_params ps ->
  invert_pipeline h (password ps) (transform ps rnd p) m =
  (Ok p, mkMachine (buffer m) (trace m ++ inverse_trace (flags h))).
Proof.
  intros Hf. destruct m as [buf tr], ps as [b mk c pw l].
  unfold invert_pipeline, invert_error_correction, invert_encryption,
    invert_compression, transform, inverse_trace.
  rewrite Hf. unfold flags_of_params.
  destruct c, pw as [k|], l; run_machine; simpl;
    rewrite ?ec_decode_encode; simpl;
    rewrite ?open_seal; simpl;
    rewrite ?decompress_compress; simpl;
    rewrite <- ?app_assoc, ?app_nil_r; reflexivity.
Qed.

(** On what an encrypting transform produced, the inverse pipeline under any
    password gets past error correction and then follows the cipher's
    verdict: a refusal ends the run at decryption, a plaintext goes on to
    decompression. *)
Lemma invert_pipeline_encrypted (ps : Params) (rnd : Entropy)
    (p : list byte) (h : Header) (m : Machine) (k : list byte)
    (pw : option (list byte)) :
  flags h = flags_of_params ps ->
  password ps = Some k ->
  invert_pipeline h pw (transform ps rnd p) m =
  match open_under pw (seal k (salt rnd) (nonce rnd)
                            (stage_compress (compress ps) p)) with
  | Some x =>
      invert_compression h x
        (mkMachine (buffer m)
           (trace m ++
            (if error_corrected (flags h)
             then [SInvertErrorCorrection] else []) ++
            [SDecrypt]))
  | None =>
      (Err DecryptionError,
       mkMachine (buffer m)
         (trace m ++
          (if error_corrected (flags h)
           then [SInvertErrorCorrection] else []) ++
          [SDecrypt]))
  end.
Proof.
  intros Hf Hk. destruct m as [buf tr], ps as [b mk c pw0 l].
  simpl in Hk. subst pw0.
  unfold invert_pipeline, invert_error_correction, invert_encryption,
    invert_compression, transform, open_under.
  rewrite Hf. unfold flags_of_params.
  destruct c, l; run_machine; simpl;
    rewrite ?ec_decode_encode; simpl;
    destruct pw as [k'|]; simpl;
    try match goal with
        | |- context [open ?a ?b] => destruct (open a b)
        end; simpl;
    rewrite <- ?app_assoc; reflexivity.
Qed.

(** Decompression is the only stage behind decryption, and it never reports
    a decryption error. *)
Lemma invert_compression_result (h : Header) (x : list byte) (m : Machine) :
  fst (invert_compression h x m) =
  if compressed (flags h)
  then match decompress_bytes x with
       | Some y => Ok y
       | None => Err CorruptPayloadError
       end
  else Ok x.
Proof.
  unfold invert_compression.
  destruct (compressed (flags h)); run_machine; [|reflexivity].
  destruct (decompress_bytes x); reflexivity.
Qed.

(* ------------------------------------------------------------------ *)
(** *** Facts about the orchestrator                                   *)
(* ------------------------------------------------------------------ *)

Lemma header_pixels_cover : header_bits <= header_pixels * 3.
Proof.
  unfold header_pixels.
  pose proof (Nat.div_mod_eq (header_bits + 2) 3) as E.
  pose proof (Nat.mod_upper_bound (header_bits + 2) 3). lia.
Qed.

Lemma header_pixels_least (n : nat) :
  header_bits <= n * 3 -> header_pixels <= n.
Proof.
  intros H. unfold header_pixels.
  pose proof (Nat.div_mod_eq (header_bits + 2) 3) as E.
  pose proof (Nat.mod_upper_bound (header_bits + 2) 3). lia.
Qed.

Lemma checksum32_range (t : list byte) : (0 <= checksum32 t < 2 ^ 32)%Z.
Proof. unfold checksum32. apply Z.mod_pos_bound. reflexivity. Qed.

Lemma params_ok_inv (ps : Params) :
  params_ok ps = true ->
  1 <= bits_per_channel ps <= 8 /\ mask_nonempty (channel_mask ps) = true.
Proof.
  unfold params_ok. intros H.
  apply andb_prop in H as [H Hm]. apply andb_prop in H as [H1 H8].
  apply Nat.leb_le in H1, H8. auto.
Qed.

Lemma fits_inv (img : Image) (ps : Params) (len : nat) :
  fits img ps len = true ->
  (Z.of_nat len <= capacity (width img) (height img) (channel_mask ps)
                            (bits_per_channel ps))%Z /\
  (Z.of_nat len < 2 ^ 32)%Z.
Proof.
  unfold fits. intros H. apply andb_prop in H as [H1 H2].
  apply Z.leb_le in H1. apply Z.ltb_lt in H2. auto.
Qed.

(** A header written by an encode that passed its checks is well formed. *)
Lemma header_for_ok (img : Image) (ps : Params) (t : list byte) :
  params_ok ps = true ->
  fits img ps (List.length t) = true ->
  header_ok (header_for ps t).
Proof.
  intros Hp Hf. apply params_ok_inv in Hp as [Hb Hm].
  apply fits_inv in Hf as [_ Hl].
  unfold header_ok, header_for; cbn [version h_bits_per_channel
    h_channel_mask payload_length h_checksum]. unfold FORMAT_VERSION.
  pose proof (checksum32_range t).
  repeat split; try assumption; lia.
Qed.

(** What the fit test buys when the two capacity constants pay for the pixels
    the header occupies at the deepest setting (3 channels of 8 bits): room
    for the header at one bit over R, G, B, and room for the payload behind
    it at the configured depth and mask. *)
Lemma has_room_inv (img : Image) (ps : Params) (len : nat) :
  has_room img ps len = true <->
  header_bits <= List.length (pixels img) * 3 /\
  8 * len <= (List.length (pixels img) - header_pixels) *
             (mask_count (channel_mask ps) * bits_per_channel ps).
Proof.
  unfold has_room. rewrite andb_true_iff, !Nat.leb_le. reflexivity.
Qed.

Lemma fits_room (img : Image) (ps : Params) (len : nat) :
  (24 * Z.of_nat header_pixels <=
   header_bits_reserved + 8 * safety_margin)%Z ->
  params_ok ps = true ->
  image_ok img = true ->
  fits img ps len = true ->
  header_bits <= List.length (pixels img) * 3 /\
  8 * len <= (List.length (pixels img) - header_pixels) *
             (mask_count (channel_mask ps) * bits_per_channel ps).
Proof.
  intros Hres Hp Hi Hf.
  apply params_ok_inv in Hp as [Hb Hm].
  apply fits_inv in Hf as [Hcap _].
  unfold image_ok in Hi. apply Nat.eqb_eq in Hi.
  unfold capacity, raw_bits in Hcap. rewrite <- Hi in Hcap.
  pose proof (mask_count_le (channel_mask ps)) as Hc3.
  pose proof (mask_count_pos _ Hm) as Hc1.
  pose proof header_pixels_cover as Hhp.
  set (N := List.length (pixels img)) in *.
  set (c := mask_count (channel_mask ps)) in *.
  set (b := bits_per_channel ps) in *.
  set (hp := header_pixels) in *.
  assert (Hraw : (8 * Z.of_nat len + 24 * Z.of_nat hp <=
                  Z.of_nat (N * c * b))%Z).
  { pose proof (Z.mul_div_le (Z.of_nat (N * c * b) - header_bits_reserved) 8
                  ltac:(lia)).
    lia. }
  assert (Hs : c * b <= 24) by nia.
  assert (HN : hp <= N) by nia.
  split; [nia|].
  assert (Hsplit : N * c * b = (N - hp) * (c * b) + hp * (c * b)) by nia.
  nia.
Qed.

(** The encode run of a payload that passes the checks and finds room: both
    writes succeed, and the machine ends with the payload packed behind the
    header. *)
Lemma encode_run_ok (img : Image) (ps : Params) (rnd : Entropy)
    (payload : list byte) :
  params_ok ps = true ->
  image_ok img = true ->
  fits img ps (List.length (transform ps rnd payload)) = true ->
  has_room img ps (List.length (transform ps rnd payload)) = true ->
  exists buf1 buf2,
    pack (write_header (header_for ps (transform ps rnd payload)))
         (pixels img) RGB 1 0 = Ok buf1 /\
    pack (bytes_to_bits (transform ps rnd payload)) buf1 (channel_mask ps)
         (bits_per_channel ps) header_pixels = Ok buf2 /\
    encode_run img ps rnd payload (start (pixels img)) =
    (Ok tt, mkMachine buf2 (encode_trace (flags_of_params ps))).
Proof.
  intros Hp Hi Hf Hroom.
  apply has_room_inv in Hroom as [Hroom1 Hroom2].
  set (t := transform ps rnd payload) in *.
  set (h := header_for ps t).
  pose proof (pack_fits (write_header h) (pixels img) RGB 1 0) as P1.
  rewrite length_write_header, Nat.sub_0_r in P1.
  specialize (P1 ltac:(change (mask_count RGB * 1) with 3; lia)).
  set (buf1 := firstn 0 (pixels img) ++ _) in P1.
  assert (L1 : List.length buf1 = List.length (pixels img))
    by (eapply pack_length; exact P1).
  pose proof (pack_fits (bytes_to_bits t) buf1 (channel_mask ps)
                (bits_per_channel ps) header_pixels) as P2.
  rewrite length_bytes_to_bits, L1 in P2. specialize (P2 Hroom2).
  set (buf2 := firstn header_pixels buf1 ++ _) in P2.
  exists buf1, buf2. split; [exact P1|]. split; [exact P2|].
  unfold encode_run, validate, measure, check_capacity, write_header_step,
    write_payload_step, start.
  unfold bind at 1 2. unfold enter at 1. rewrite Hp, Hi. cbn [andb ret].
  unfold bind at 1. rewrite transform_payload_run. fold t.
  unfold bind at 1 2. unfold enter at 1. cbn [ret]. fold h.
  unfold bind at 1 2. unfold enter at 1.
  change (payload_length h) with (List.length t). rewrite Hf. cbn [ret].
  cbn [buffer trace].
  unfold bind at 1 2. unfold enter at 1. unfold bind at 1.
  unfold get_buffer at 1. cbn [buffer trace].
  unfold bind at 1. rewrite P1. cbn [lift ret put_buffer buffer trace].
  unfold bind at 1. unfold enter at 1. unfold bind at 1.
  unfold get_buffer at 1. cbn [buffer trace].
  unfold bind at 1. rewrite P2. cbn [lift ret put_buffer buffer trace].
  unfold encode_trace. rewrite <- !app_assoc. reflexivity.
Qed.


(** An [Ok] from [encode] means every check passed and both writes succeeded. *)
Lemma encode_Ok_inv (img img' : Image) (ps : Params) (rnd : Entropy)
    (payload : list byte) :
  encode img ps rnd payload = Ok img' ->
  params_ok ps = true /\
  image_ok img = true /\
  fits img ps (List.length (transform ps rnd payload)) = true /\
  exists buf1 buf2,
    pack (write_header (header_for ps (transform ps rnd payload)))
         (pixels img) RGB 1 0 = Ok buf1 /\
    pack (bytes_to_bits (transform ps rnd payload)) buf1 (channel_mask ps)
         (bits_per_channel ps) header_pixels = Ok buf2 /\
    img' = mkImage (width img) (height img) buf2.
Proof.
  unfold encode, encode_run, validate, measure, check_capacity,
    write_header_step, write_payload_step, start.
  unfold bind at 1 2. unfold enter at 1.
  destruct (params_ok ps) eqn:Hp; [|cbn; discriminate].
  destruct (image_ok img) eqn:Hi; [|cbn; discriminate].
  cbn [andb ret].
  unfold bind at 1. rewrite transform_payload_run.
  set (t := transform ps rnd payload).
  unfold bind at 1 2. unfold enter at 1. cbn [ret].
  set (h := header_for ps t).
  unfold bind at 1 2. unfold enter at 1.
  change (payload_length h) with (List.length t).
  destruct (fits img ps (List.length t)) eqn:Hf; [|cbn; discriminate].
  cbn [ret buffer trace].
  unfold bind at 1 2. unfold enter at 1. unfold bind at 1.
  unfold get_buffer at 1. cbn [buffer trace].
  unfold bind at 1.
  destruct (pack (write_header h) (pixels img) RGB 1 0) as [buf1|e] eqn:P1;
    [|cbn; discriminate].
  cbn [lift ret put_buffer buffer trace].
  unfold bind at 1. unfold enter at 1. unfold bind at 1.
  unfold get_buffer at 1. cbn [buffer trace].
  unfold bind at 1.
  destruct (pack (bytes_to_bits t) buf1 (channel_mask ps)
              (bits_per_channel ps) header_pixels) as [buf2|e] eqn:P2;
    [|cbn; discriminate].
  cbn [lift ret put_buffer buffer trace]. intros [= <-].
  repeat split. exists buf1, buf2. repeat split; assumption.
Qed.

(** What is read from an image the two writes produced: the header at one bit
    over R, G, B from the first pixel, and the payload behind it. *)
Lemma written_image_reads (px buf1 buf2 : list Pixel) (h : Header)
    (t : list byte) :
  header_ok h ->
  pack (write_header h) px RGB 1 0 = Ok buf1 ->
  pack (bytes_to_bits t) buf1 (h_channel_mask h) (h_bits_per_channel h)
       header_pixels = Ok buf2 ->
  unpack buf2 RGB 1 0 header_bits = Some (write_header h) /\
  read_header buf2 = Some h /\
  unpack buf2 (h_channel_mask h) (h_bits_per_channel h) header_pixels
         (8 * List.length t) = Some (bytes_to_bits t).
Proof.
  intros Hok P1 P2.
  assert (U1 : unpack buf2 RGB 1 0 header_bits = Some (write_header h)).
  { pose proof (pack_Ok_inv _ _ _ _ _ _ P1) as [Hroom _].
    rewrite length_write_header, Nat.sub_0_r in Hroom.
    change (mask_count RGB * 1) with 3 in Hroom.
    rewrite (unpack_prefix RGB 1 header_pixels header_bits buf1 buf2).
    - rewrite <- (length_write_header h). eapply unpack_pack; exact P1.
    - rewrite (pack_length _ _ _ _ _ _ P1). now apply header_pixels_least.
    - eapply pack_length; exact P2.
    - eapply pack_firstn; exact P2.
    - change (mask_count RGB * 1) with 3. apply header_pixels_cover. }
  split; [exact U1|]. split.
  - unfold read_header. rewrite U1. now apply parse_write_header.
  - rewrite <- length_bytes_to_bits. eapply unpack_pack; exact P2.
Qed.

(** A decode whose header, payload and checksum are in order goes on to the
    inverse pipeline, and to nothing else. *)
Lemma decode_run_checked (pw : option (list byte)) (px : list Pixel)
    (h : Header) (bits : list bool) :
  read_header px = Some h ->
  version h = FORMAT_VERSION ->
  unpack px (h_channel_mask h) (h_bits_per_channel h) header_pixels
         (8 * payload_length h) = Some bits ->
  checksum32 (bits_to_bytes bits) = h_checksum h ->
  decode_run pw (start px) =
  invert_pipeline h pw (bits_to_bytes bits) (mkMachine px decode_prefix).
Proof.
  intros Hh Hv Hu Hc.
  unfold decode_run, read_header_step, read_payload_step,
    verify_checksum_step, start.
  unfold bind at 1 2. unfold enter at 1. unfold bind at 1.
  unfold get_buffer at 1. cbn [buffer trace].
  unfold bind at 1. rewrite Hh. cbn [or_fail ret].
  rewrite Hv, Z.eqb_refl. cbn [ret].
  unfold bind at 1 2. unfold enter at 1. unfold bind at 1.
  unfold get_buffer at 1. cbn [buffer trace].
  unfold bind at 1. rewrite Hu. cbn [or_fail ret].
  unfold bind at 1 2. unfold enter at 1. cbn [buffer trace].
  rewrite Hc, Z.eqb_refl. cbn [ret]. reflexivity.
Qed.

(** A decode whose checksum does not match stops there. *)
Lemma decode_run_mismatch (pw : option (list byte)) (px : list Pixel)
    (h : Header) (bits : list bool) :
  read_header px = Some h ->
  version h = FORMAT_VERSION ->
  unpack px (h_channel_mask h) (h_bits_per_channel h) header_pixels
         (8 * payload_length h) = Some bits ->
  checksum32 (bits_to_bytes bits) <> h_checksum h ->
  decode_run pw (start px) =
  (Err CorruptPayloadError, mkMachine px decode_prefix).
Proof.
  intros Hh Hv Hu Hc.
  unfold decode_run, read_header_step, read_payload_step,
    verify_checksum_step, start.
  unfold bind at 1 2. unfold enter at 1. unfold bind at 1.
  unfold get_buffer at 1. cbn [buffer trace].
  unfold bind at 1. rewrite Hh. cbn [or_fail ret].
  rewrite Hv, Z.eqb_refl. cbn [ret].
  unfold bind at 1 2. unfold enter at 1. unfold bind at 1.
  unfold get_buffer at 1. cbn [buffer trace].
  unfold bind at 1. rewrite Hu. cbn [or_fail ret].
  unfold bind at 1 2. unfold enter at 1. cbn [buffer trace].
  destruct (Z.eqb_spec (checksum32 (bits_to_bytes bits)) (h_checksum h));
    [contradiction|].
  reflexivity.
Qed.


(** Writing is local: the first [k] pixels of the result are the result of
    writing into the first [k] pixels. *)
Lemma firstn_write_pixels (chs : list Channel) (b : nat) :
  forall px k bits,
  firstn k (fst (write_pixels chs b px bits)) =
  fst (write_pixels chs b (firstn k px) bits).
Proof.
  induction px as [|p ps IH]; intros k bits.
  - now rewrite !firstn_nil.
  - destruct k as [|k]; [reflexivity|].
    cbn [firstn write_pixels].
    destruct (write_pixel chs b p bits) as [p' rest].
    specialize (IH k rest).
    destruct (write_pixels chs b ps rest) as [ps' r1].
    destruct (write_pixels chs b (firstn k ps) rest) as [ps'' r2].
    cbn [fst firstn] in *. now rewrite IH.
Qed.



(** What a decode reads from an encoded image, up to the inverse pipeline. *)
Lemma decode_of_encoded (img img' : Image) (ps : Params) (rnd : Entropy)
    (payload : list byte) (pw : option (list byte)) :
  encode img ps rnd payload = Ok img' ->
  decode_run pw (start (pixels img')) =
  invert_pipeline (header_for ps (transform ps rnd payload)) pw
    (transform ps rnd payload) (mkMachine (pixels img') decode_prefix).
Proof.
  intros Henc.
  destruct (encode_Ok_inv _ _ _ _ _ Henc)
    as (Hp & Hi & Hf & buf1 & buf2 & P1 & P2 & ->).
  set (t := transform ps rnd payload) in *.
  pose proof (header_for_ok img ps t Hp Hf) as Hok.
  destruct (written_image_reads _ _ _ (header_for ps t) t Hok P1 P2)
    as (_ & Hh & Hu).
  cbn [pixels].
  rewrite (decode_run_checked _ _ (header_for ps t) (bytes_to_bits t));
    try assumption; try reflexivity.
  - now rewrite bits_to_bytes_to_bits.
  - now rewrite bits_to_bytes_to_bits.
Qed.

(* ------------------------------------------------------------------ *)
(** *** The codec's properties                                         *)
(* ------------------------------------------------------------------ *)


(** C3 (header at a fixed place and depth). Whatever depth and channel mask
    the payload uses, the leading pixels of an encoded image are the source's
    leading pixels with the header written at one bit per channel over R, G,
    B; reading one bit per channel over R, G, B from the first pixel gives the
    header's bits back, and they parse to the header of that encode, from the
    image alone. *)
Theorem header_at_fixed_depth (img img' : Image) (ps : Params)
    (rnd : Entropy) (payload : list byte) :
  encode img ps rnd payload = Ok img' ->
  let h := header_for ps (transform ps rnd payload) in
  firstn header_pixels (pixels img') =
    fst (write_pixels [R; G; B] 1 (firstn header_pixels (pixels img))
           (write_header h)) /\
  unpack (pixels img') RGB 1 0 header_bits = Some (write_header h) /\
  read_header (pixels img') = Some h.
Proof.
  intros Henc h.
  destruct (encode_Ok_inv _ _ _ _ _ Henc)
    as (Hp & Hi & Hf & buf1 & buf2 & P1 & P2 & ->).
  pose proof (header_for_ok img ps _ Hp Hf) as Hok. fold h in Hok, P1.
  destruct (written_image_reads _ _ _ h _ Hok P1 P2) as (U1 & Hh & _).
  cbn [pixels]. repeat split; try assumption.
  rewrite (pack_firstn _ _ _ _ _ _ P2).
  apply pack_Ok_inv in P1 as [_ ->].
  cbn [firstn skipn app]. apply firstn_write_pixels.
Qed.


(** C4 (order of the pipeline). For each of the combinations of compress,
    encrypt and error-correct: the encode run enters the enabled stages in the
    order compress, encrypt, error-correct, between validation and measuring;
    the bytes found behind the header are error-correct(encrypt(compress
    payload)), each stage fed by the one before; the header's flags record
    which stages ran; and the decode run, after reading the header, reading
    the payload and verifying the checksum, enters exactly the inverses the
    flags name, in the order error-correction, decryption, decompression, and
    ends with the payload. The first premise, on the two capacity constants,
    only makes the encode succeed. *)
Theorem pipeline_order (img : Image) (ps : Params) (rnd : Entropy)
    (payload : list byte) :
  (24 * Z.of_nat header_pixels <=
   header_bits_reserved + 8 * safety_margin)%Z ->
  params_ok ps = true ->
  image_ok img = true ->
  fits img ps (List.length (transform ps rnd payload)) = true ->
  exists img' h,
    encode img ps rnd payload = Ok img' /\
    encode_run img ps rnd payload (start (pixels img)) =
      (Ok tt, mkMachine (pixels img')
                ([SValidate] ++
                 (if compress ps then [SCompress] else []) ++
                 (if is_some (password ps) then [SEncrypt] else []) ++
                 (if ec_enabled (error_correction ps)
                  then [SErrorCorrect] else []) ++
                 [SMeasure; SCheckCapacity; SWriteHeader; SWritePayload])) /\
    read_header (pixels img') = Some h /\
    flags h = mkFlags (compress ps) (is_some (password ps))
                      (ec_enabled (error_correction ps)) /\
    unpack (pixels img') (h_channel_mask h) (h_bits_per_channel h)
           header_pixels (8 * payload_length h) =
      Some (bytes_to_bits
              (stage_error_correct (error_correction ps)
                 (stage_encrypt (password ps) rnd
                    (stage_compress (compress ps) payload)))) /\
    decode_run (password ps) (start (pixels img')) =
      (Ok payload,
       mkMachine (pixels img')
         ([SReadHeader; SReadPayload; SVerifyChecksum] ++
          (if error_corrected (flags h)
           then [SInvertErrorCorrection] else []) ++
          (if encrypted (flags h) then [SDecrypt] else []) ++
          (if compressed (flags h) then [SDecompress] else []))).
Proof.
  intros Hres Hp Hi Hf.
  assert (Hroom : has_room img ps
                    (List.length (transform ps rnd payload)) = true)
    by (apply has_room_inv; now apply fits_room).
  destruct (encode_run_ok img ps rnd payload Hp Hi Hf Hroom)
    as (buf1 & buf2 & P1 & P2 & Hrun).
  set (t := transform ps rnd payload) in *.
  pose proof (header_for_ok img ps t Hp Hf) as Hok.
  destruct (written_image_reads _ _ _ (header_for ps t) t Hok P1 P2)
    as (_ & Hh & Hu).
  exists (mkImage (width img) (height img) buf2), (header_for ps t).
  cbn [pixels]. split; [|split; [|split; [|split; [|split]]]].
  - unfold encode. now rewrite Hrun.
  - rewrite Hrun. unfold encode_trace, transform_trace, flags_of_params.
    cbn [compressed encrypted error_corrected].
    rewrite <- !app_assoc. reflexivity.
  - exact Hh.
  - reflexivity.
  - exact Hu.
  - rewrite (decode_run_checked _ _ (header_for ps t) (bytes_to_bits t));
      try assumption; try reflexivity.
    + rewrite bits_to_bytes_to_bits. unfold t.
      rewrite invert_pipeline_transform by reflexivity. reflexivity.
    + now rewrite bits_to_bytes_to_bits.
Qed.



(** C7 (checksum first). When a decode finds a valid header and reads the
    payload it describes, a checksum that does not match the extracted bytes
    yields [CorruptPayloadError]; the run ends right after the verification,
    whatever the password and whatever the inverse stages would do, and no
    inverse stage has been entered. *)
Theorem checksum_before_inverse (img : Image) (pw : option (list byte))
    (h : Header) (bits : list bool) :
  read_header (pixels img) = Some h ->
  version h = FORMAT_VERSION ->
  unpack (pixels img) (h_channel_mask h) (h_bits_per_channel h)
         header_pixels (8 * payload_length h) = Some bits ->
  checksum32 (bits_to_bytes bits) <> h_checksum h ->
  decode img pw = Err CorruptPayloadError /\
  trace (snd (decode_run pw (start (pixels img)))) =
    [SReadHeader; SReadPayload; SVerifyChecksum] /\
  buffer (snd (decode_run pw (start (pixels img)))) = pixels img.
Proof.
  intros Hh Hv Hu Hc. unfold decode.
  rewrite (decode_run_mismatch pw _ h bits Hh Hv Hu Hc).
  repeat split.
Qed.


(** Before any inverse stage is entered, a header has been read, the payload
    it describes has been read, and the checksum has matched. *)
Lemma inverse_stage_needs_checksum (px : list Pixel)
    (pw : option (list byte)) (s : Stage) :
  In s (trace (snd (decode_run pw (start px)))) ->
  In s [SInvertErrorCorrection; SDecrypt; SDecompress] ->
  exists h bits,
    read_header px = Some h /\
    version h = FORMAT_VERSION /\
    unpack px (h_channel_mask h) (h_bits_per_channel h) header_pixels
           (8 * payload_length h) = Some bits /\
    checksum32 (bits_to_bytes bits) = h_checksum h.
Proof.
  intros Hin Hs.
  assert (Hno : ~ In s decode_prefix)
    by (simpl in *; intuition (subst; discriminate)).
  destruct (read_header px) as [h|] eqn:Hh.
  2:{ exfalso. apply Hno. revert Hin.
      unfold decode_run, read_header_step, start.
      unfold bind at 1 2. unfold enter at 1. unfold bind at 1.
      unfold get_buffer at 1. cbn [buffer trace].
      unfold bind at 1. rewrite Hh. cbn [or_fail fail snd trace].
      simpl. tauto. }
  destruct (Z.eqb_spec (version h) FORMAT_VERSION) as [Hv|Hv].
  2:{ exfalso. apply Hno. revert Hin.
      unfold decode_run, read_header_step, start.
      unfold bind at 1 2. unfold enter at 1. unfold bind at 1.
      unfold get_buffer at 1. cbn [buffer trace].
      unfold bind at 1. rewrite Hh. cbn [or_fail ret].
      destruct (Z.eqb_spec (version h) FORMAT_VERSION); [contradiction|].
      cbn [fail snd trace]. simpl. tauto. }
  destruct (unpack px (h_channel_mask h) (h_bits_per_channel h) header_pixels
              (8 * payload_length h)) as [bits|] eqn:Hu.
  2:{ exfalso. apply Hno. revert Hin.
      unfold decode_run, read_header_step, read_payload_step, start.
      unfold bind at 1 2. unfold enter at 1. unfold bind at 1.
      unfold get_buffer at 1. cbn [buffer trace].
      unfold bind at 1. rewrite Hh. cbn [or_fail ret].
      rewrite Hv, Z.eqb_refl. cbn [ret].
      unfold bind at 1 2. unfold enter at 1. unfold bind at 1.
      unfold get_buffer at 1. cbn [buffer trace].
      unfold bind at 1. rewrite Hu. cbn [or_fail fail snd trace].
      simpl. tauto. }
  destruct (Z.eq_dec (checksum32 (bits_to_bytes bits)) (h_checksum h))
    as [Hc|Hc].
  - exists h, bits. auto.
  - exfalso. apply Hno.
    rewrite (decode_run_mismatch pw px h bits Hh Hv Hu Hc) in Hin.
    exact Hin.
Qed.

(** The modelled capacity figure grows with the depth and with the number of
    channels, whatever the two constants are. *)
Lemma capacity_monotone (w h : nat) (m1 m2 : ChannelMask) (b1 b2 : nat) :
  mask_count m1 <= mask_count m2 ->
  b1 <= b2 ->
  (capacity w h m1 b1 <= capacity w h m2 b2)%Z.
Proof.
  intros Hm Hb. unfold capacity, raw_bits.
  assert (w * h * mask_count m1 * b1 <= w * h * mask_count m2 * b2)
    by (apply Nat.mul_le_mono; [apply Nat.mul_le_mono_l|]; assumption).
  apply Z.sub_le_mono_r. apply Z.div_le_mono; lia.
Qed.


(** A header is found only behind the magic marker; without one the decode
    reports that there is no hidden data. *)
Lemma parse_header_magic (bits : list bool) (h : Header) :
  parse_header bits = Some h ->
  firstn (8 * List.length magic) bits = bytes_to_bits magic.
Proof.
  unfold parse_header.
  destruct (bits_eqb (firstn (8 * List.length magic) bits)
              (bytes_to_bits magic)) eqn:E; [|discriminate].
  intros _. now apply bits_eqb_eq.
Qed.

Lemma decode_no_header (img : Image) (pw : option (list byte)) :
  read_header (pixels img) = None ->
  decode img pw = Err NoHiddenDataError.
Proof.
  intros Hh. unfold decode, decode_run, read_header_step, start.
  unfold bind at 1 2. unfold enter at 1. unfold bind at 1.
  unfold get_buffer at 1. cbn [buffer trace].
  unfold bind at 1. rewrite Hh. reflexivity.
Qed.


(** Whatever the header and the extracted bytes are, the inverse pipeline
    enters inverses only as the header's flags name them and only in the order
    error-correction, decryption, decompression: the stages entered are an
    initial part of that list, and all of it when the pipeline succeeds. *)
Lemma invert_pipeline_selects (h : Header) (pw : option (list byte))
    (t : list byte) (m : Machine) :
  exists entered later,
    trace (snd (invert_pipeline h pw t m)) = trace m ++ entered /\
    inverse_trace (flags h) = entered ++ later /\
    (forall p, fst (invert_pipeline h pw t m) = Ok p -> later = []).
Proof.
  destruct m as [buf tr], h as [v [c e k] b mk len ck].
  unfold invert_pipeline, invert_error_correction, invert_encryption,
    invert_compression, inverse_trace.
  cbn [flags compressed encrypted error_corrected].
  destruct k, e, c; run_machine; cbn [app];
    repeat match goal with
      | |- context [ec_decode t] => destruct (ec_decode t)
      | |- context [match pw with _ => _ end] => destruct pw
      | |- context [open ?a ?b] => destruct (open a b)
      | |- context [decompress_bytes ?a] => destruct (decompress_bytes a)
      end;
    cbn [fst snd trace]; rewrite <- ?app_assoc; cbn [app];
    match goal with
    | |- exists entered later, ?tr0 ++ ?l = ?tr0 ++ entered /\ _ =>
        exists l
    | |- exists entered later, ?tr0 = ?tr0 ++ entered /\ _ =>
        exists []
    end;
    eexists; (split; [now rewrite ?app_nil_r|]);
    (split; [cbn [app]; reflexivity|]);
    intros p Hp; try discriminate Hp; reflexivity.
Qed.


(* ------------------------------------------------------------------ *)
(** *** No cipher refuses every other password                         *)
(* ------------------------------------------------------------------ *)

Lemma In_all_bytes (b : byte) : In b all_bytes.
Proof.
  unfold all_bytes. apply in_map_iff. exists (Byte.to_nat b). split.
  - now rewrite Byte.of_to_nat.
  - apply in_seq. pose proof (Byte.to_nat_bounded b). lia.
Qed.

Lemma length_all_bytes : List.length all_bytes = 256.
Proof. unfold all_bytes. now rewrite length_map, length_seq. Qed.

Lemma In_all_lists (l : list byte) : In l (all_lists (List.length l)).
Proof.
  induction l as [|b l IH]; [now left|].
  cbn [List.length all_lists]. apply in_flat_map. exists b. split.
  - apply In_all_bytes.
  - now apply in_map.
Qed.

Lemma length_all_lists (len : nat) :
  List.length (all_lists len) = 256 ^ len.
Proof.
  induction len as [|len IH]; [reflexivity|].
  cbn [all_lists].
  rewrite flat_map_constant_length with (c := List.length (all_lists len)).
  - rewrite length_all_bytes, IH. cbn [Nat.pow]. lia.
  - intros b _. apply length_map.
Qed.

Lemma find_earlier {B : Type}
    (eq_dec : forall x y : B, {x = y} + {x <> y}) (f : nat -> B) (y : B)
    (n : nat) :
  (exists i, i < n /\ f i = y) \/ (forall i, i < n -> f i <> y).
Proof.
  induction n as [|n IH].
  - right. intros i Hi. lia.
  - destruct IH as [(i & Hi & E) | IH].
    + left. exists i. split; [lia | exact E].
    + destruct (eq_dec (f n) y) as [E|E].
      * left. exists n. split; [lia | exact E].
      * right. intros i Hi.
        destruct (Nat.eq_dec i n) as [->|Hne]; [exact E | apply IH; lia].
Qed.

(** The pigeonhole principle, with the two pigeons named: more indices than
    values means two indices with the same value. *)
Lemma pigeonhole_collision {B : Type}
    (eq_dec : forall x y : B, {x = y} + {x <> y}) (f : nat -> B) :
  forall n (l : list B),
    (forall i, i < n -> In (f i) l) ->
    List.length l < n ->
    exists i j, i < j /\ j < n /\ f i = f j.
Proof.
  induction n as [|n IH]; intros l Hin Hlen; [lia|].
  destruct (find_earlier eq_dec f (f n) n) as [(i & Hi & E) | Hfresh].
  - exists i, n. repeat split; [assumption | lia | assumption].
  - destruct (IH (remove eq_dec (f n) l)) as (i & j & Hij & Hj & E).
    + intros i Hi. apply in_in_remove; [now apply Hfresh | apply Hin; lia].
    + pose proof (remove_length_lt eq_dec l (f n) (Hin n ltac:(lia))). lia.
    + exists i, j. repeat split; [assumption | lia | assumption].
Qed.

(** When the size of the envelope does not depend on the password, as is the
    case of salt, nonce, ciphertext and tag, two different passwords give the
    same envelope for the same salt, nonce and plaintext; a cipher that opens
    its own envelopes then opens that envelope under the other password. *)
Lemma some_other_password_opens (s n p : list byte) :
  (forall k k',
     List.length (seal k s n p) = List.length (seal k' s n p)) ->
  exists k k', k <> k' /\ open k' (seal k s n p) = Some p.
Proof.
  intros Hsize.
  set (len := List.length (seal [] s n p)).
  set (f := fun i => seal (repeat x00 i) s n p).
  destruct (pigeonhole_collision (list_eq_dec Byte.byte_eq_dec) f
              (S (256 ^ len)) (all_lists len)) as (i & j & Hij & _ & E).
  - intros i _. unfold f.
    replace len with (List.length (seal (repeat x00 i) s n p))
      by apply Hsize.
    apply In_all_lists.
  - rewrite length_all_lists. lia.
  - exists (repeat x00 i), (repeat x00 j). split.
    + intros Heq. apply (f_equal (@List.length byte)) in Heq.
      rewrite !repeat_length in Heq. lia.
    + unfold f in E. rewrite E. apply open_seal.
Qed.

(** The same at the level of the codec: for every image, setting, salt,
    nonce and payload there are two different passwords such that, whenever
    the payload is encoded under the first, decoding under the second
    returns the payload and no [DecryptionError]. *)
Lemma other_password_decodes (img : Image) (ps : Params) (rnd : Entropy)
    (payload : list byte) :
  (forall k k' p,
     List.length (seal k (salt rnd) (nonce rnd) p) =
     List.length (seal k' (salt rnd) (nonce rnd) p)) ->
  exists p1 p2,
    p1 <> p2 /\
    forall img',
      encode img (with_password ps p1) rnd payload = Ok img' ->
      decode img' (Some p2) = Ok payload.
Proof.
  intros Hsize.
  destruct (some_other_password_opens (salt rnd) (nonce rnd)
              (stage_compress (compress ps) payload))
    as (p1 & p2 & Hne & Hopen).
  { intros k k'. apply Hsize. }
  exists p1, p2. split; [exact Hne|].
  intros img' Henc. unfold decode.
  rewrite (decode_of_encoded _ _ _ _ _ (Some p2) Henc).
  rewrite (invert_pipeline_encrypted (with_password ps p1) rnd payload _ _ p1)
    by reflexivity.
  cbn [with_password compress open_under]. rewrite Hopen.
  rewrite invert_compression_result.
  cbn [header_for flags flags_of_params compressed with_password compress].
  destruct (compress ps); [|reflexivity].
  cbn [stage_compress]. now rewrite decompress_compress.
Qed.

End Model.

(* ------------------------------------------------------------------ *)
(** *** The model at concrete instances                                *)
(* ------------------------------------------------------------------ *)

(** The stand-in stages meet what the model asks of its stages. *)
Lemma demo_decompress_compress (p : list byte) :
  demo_decompress (demo_compress p) = Some p.
Proof. reflexivity. Defined.

Lemma demo_ec_decode_encode (l : ErrorCorrection) (p : list byte) :
  demo_ec_decode (demo_ec_encode l p) = Some p.
Proof. reflexivity. Defined.

Lemma demo_open_seal (k s n p : list byte) :
  demo_open k (demo_seal k s n p) = Some p.
Proof.
  unfold demo_seal. induction k as [|c k IH]; [reflexivity|].
  cbn [demo_tag app demo_open]. now rewrite Byte.byte_dec_lb by reflexivity.
Defined.

(** So does the second stand-in cipher, whose envelope has a size that does
    not depend on the password. *)
Lemma demo_short_open_seal (k s n p : list byte) :
  demo_short_open k (demo_short_seal k s n p) = Some p.
Proof.
  unfold demo_short_open, demo_short_seal.
  now rewrite Byte.byte_dec_lb by reflexivity.
Defined.

Lemma demo_short_size (k k' s n p : list byte) :
  List.length (demo_short_seal k s n p) =
  List.length (demo_short_seal k' s n p).
Proof. reflexivity. Defined.

(** With a 16-byte header (43 leading pixels), 128 reserved bits and a margin
    of 113 bytes pay for the header region at every depth. *)
Lemma demo_reserve :
  (24 * Z.of_nat (header_pixels demo_magic) <= 128 + 8 * 113)%Z.
Proof. vm_compute. discriminate. Defined.

Local Abbreviation demo_encode :=
  (encode demo_magic demo_checksum demo_compress demo_seal demo_ec_encode
          128%Z 113%Z).
Local Abbreviation demo_decode :=
  (decode demo_magic demo_checksum demo_decompress demo_open demo_ec_decode).
Local Abbreviation demo_decode_run :=
  (decode_run demo_magic demo_checksum demo_decompress demo_open
              demo_ec_decode).



(** C3 at an instance: the header of a depth-3, two-channel encode is read at
    one bit over R, G, B. *)
Lemma header_at_fixed_depth_witness :
  exists img',
    demo_encode (demo_image 20 18) demo_full demo_entropy demo_payload =
      Ok img' /\
    read_header demo_magic (pixels img') =
      Some (mkHeader 1 (mkFlags true true true) 3 (mkMask true false true)
                     12 2149309916).
Proof.
  eexists. split; [vm_compute; reflexivity|].
  refine (proj2 (proj2 (header_at_fixed_depth demo_magic demo_checksum
                          demo_compress demo_seal demo_ec_encode 128%Z 113%Z
                          (demo_image 20 18) _ demo_full demo_entropy
                          demo_payload _))).
  vm_compute. reflexivity.
Defined.

(** C4 at an instance: with every stage on, the decode enters the three
    inverses in reverse order and ends with "HELLO". *)
Lemma pipeline_order_witness :
  exists img',
    demo_encode (demo_image 20 18) demo_full demo_entropy demo_payload =
      Ok img' /\
    demo_decode_run (Some [x70; x77]) (start (pixels img')) =
      (Ok demo_payload,
       mkMachine (pixels img')
         [SReadHeader; SReadPayload; SVerifyChecksum;
          SInvertErrorCorrection; SDecrypt; SDecompress]).
Proof.
  destruct (pipeline_order demo_magic demo_checksum demo_compress
              demo_decompress demo_seal demo_open demo_ec_encode
              demo_ec_decode 128%Z 113%Z
              demo_decompress_compress demo_open_seal demo_ec_decode_encode
              (demo_image 20 18) demo_full demo_entropy demo_payload
              demo_reserve
              ltac:(vm_compute; reflexivity) ltac:(vm_compute; reflexivity)
              ltac:(vm_compute; reflexivity))
    as (img' & h & Henc & _ & _ & Hfl & _ & Hdec).
  exists img'. split; [exact Henc|].
  change (password demo_full) with (Some [x70; x77]) in Hdec.
  rewrite Hdec, Hfl. reflexivity.
Defined.




(** The same for every cipher: with any stages that undo each other and any
    cipher whose envelope has a size independent of the password, some
    payload encoded under one password decodes under another. Here at the
    second stand-in cipher. *)
Lemma demo_short_other_password_decodes :
  exists p1 p2,
    p1 <> p2 /\
    forall img',
      encode demo_magic demo_checksum demo_compress demo_short_seal
             demo_ec_encode 128 113 (demo_image 20 18)
             (with_password demo_full p1) demo_entropy demo_payload =
        Ok img' ->
      decode demo_magic demo_checksum demo_decompress demo_short_open
             demo_ec_decode img' (Some p2) = Ok demo_payload.
Proof.
  apply (other_password_decodes demo_magic demo_checksum demo_compress
           demo_decompress demo_short_seal demo_short_open demo_ec_encode
           demo_ec_decode 128%Z 113%Z demo_decompress_compress
           demo_short_open_seal demo_ec_decode_encode).
  intros k k' p. apply demo_short_size.
Qed.


(** C7 at an instance: one flipped payload bit in an encoded image. *)
Lemma checksum_before_inverse_witness :
  demo_decode
    (mkImage 20 18
       (flip_red_lsb 43
          (match demo_encode (demo_image 20 18) demo_plain demo_entropy
                             demo_payload with
           | Ok i => pixels i
           | Err _ => []
           end)))
    None = Err CorruptPayloadError.
Proof.
  eapply proj1.
  eapply (checksum_before_inverse demo_magic demo_checksum demo_decompress
            demo_open demo_ec_decode).
  - vm_compute. reflexivity.
  - vm_compute. reflexivity.
  - vm_compute. reflexivity.
  - vm_compute. discriminate.
Defined.

End Codec.

(* ================================================================== *)
(** ** Part III: properties of the encode page                        *)
(* ================================================================== *)

Module EncodeLabFacts.

Import EncodeLab.

Lemma overhead_in_bits (x : Z) : (x - 800) / 8 = x / 8 - 100.
Proof.
  replace (x - 800) with (x + (-100) * 8) by lia.
  rewrite Z.div_add by lia. lia.
Qed.

Lemma usableCapacity_unfold (w h n b : Z) :
  usableCapacity w h n b = Z.max 0 (w * h * n * b / 8 - 100).
Proof. reflexivity. Qed.

Lemma totalBits_monotone (w h n1 n2 b1 b2 : Z) :
  0 <= w -> 0 <= h -> 0 <= n1 <= n2 -> 0 <= b1 <= b2 ->
  w * h * n1 * b1 <= w * h * n2 * b2.
Proof.
  intros Hw Hh Hn Hb.
  assert (0 <= w * h) by lia.
  assert (w * h * n1 <= w * h * n2) by nia.
  assert (0 <= w * h * n1) by nia.
  nia.
Qed.

(** C2, as stated, fails on the page's estimate: no pair of constants makes
    [floor((W*H*|mask|*bits - header_bits_reserved) / 8) - safety_margin] equal
    to the estimate on all images. A 1 x 1 and a 10 x 10 image, both with R,
    G, B at depth 1, are both given 0 bytes, while their raw sizes are 3 and
    300 bits. *)
Lemma capacity_formula_counterexample :
  ~ (exists hbr sm : Z,
       forall w h n b : Z,
         0 < w -> 0 < h -> 1 <= n <= 3 -> 1 <= b <= 8 ->
         usableCapacity w h n b = (w * h * n * b - hbr) / 8 - sm).
Proof.
  intros (hbr & sm & H).
  pose proof (H 1 1 3 1 ltac:(lia) ltac:(lia) ltac:(lia) ltac:(lia)) as H1.
  pose proof (H 10 10 3 1 ltac:(lia) ltac:(lia) ltac:(lia) ltac:(lia)) as H2.
  change (usableCapacity 1 1 3 1) with 0 in H1.
  change (usableCapacity 10 10 3 1) with 0 in H2.
  change (1 * 1 * 3 * 1) with 3 in H1.
  change (10 * 10 * 3 * 1) with 300 in H2.
  revert H1 H2.
  generalize (Z.div_mod (3 - hbr) 8 ltac:(lia)).
  generalize (Z.mod_pos_bound (3 - hbr) 8 ltac:(lia)).
  generalize (Z.div_mod (300 - hbr) 8 ltac:(lia)).
  generalize (Z.mod_pos_bound (300 - hbr) 8 ltac:(lia)).
  lia.
Qed.

(** C2, amended. The estimate is the formula with a reservation of 800 bits
    (the 100-byte overhead, taken off after the division by 8, which is the
    same) and no further margin, clamped at zero; it is that formula exactly
    as soon as the image offers 800 raw bits; and for R, G, B at depth 1 it is
    [floor(W*H*3/8) - 100], clamped at zero. *)
Theorem capacity_formula_clamped (w h n b : Z) :
  usableCapacity w h n b = Z.max 0 ((w * h * n * b - 800) / 8 - 0) /\
  (800 <= w * h * n * b ->
   usableCapacity w h n b = (w * h * n * b - 800) / 8 - 0) /\
  usableCapacity w h 3 1 = Z.max 0 (w * h * 3 / 8 - 100).
Proof.
  rewrite overhead_in_bits, Z.sub_0_r, usableCapacity_unfold.
  repeat split.
  - intros Hraw. apply Z.max_r.
    pose proof (Z.div_le_mono 800 (w * h * n * b) 8 ltac:(lia) Hraw) as Hd.
    change (800 / 8) with 100 in Hd. lia.
  - rewrite usableCapacity_unfold. now rewrite Z.mul_1_r.
Qed.

Lemma capacity_formula_clamped_witness :
  usableCapacity 100 100 3 1 = (100 * 100 * 3 * 1 - 800) / 8 - 0.
Proof.
  apply (proj1 (proj2 (capacity_formula_clamped 100 100 3 1))).
  vm_compute. discriminate.
Defined.

(** C8. For fixed image dimensions the page's estimate does not decrease when
    the depth grows and does not decrease when the number of selected
    channels grows. *)
Theorem capacity_estimate_monotone (w h : Z) :
  0 <= w -> 0 <= h ->
  (forall n b1 b2, 0 <= n -> 0 <= b1 <= b2 ->
     usableCapacity w h n b1 <= usableCapacity w h n b2) /\
  (forall n1 n2 b, 0 <= n1 <= n2 -> 0 <= b ->
     usableCapacity w h n1 b <= usableCapacity w h n2 b) /\
  (forall (ch1 ch2 : list string) b1 b2,
     (List.length ch1 <= List.length ch2)%nat -> 1 <= b1 <= b2 -> b2 <= 8 ->
     usableCapacity w h (Z.of_nat (List.length ch1)) b1 <=
     usableCapacity w h (Z.of_nat (List.length ch2)) b2).
Proof.
  intros Hw Hh.
  assert (Hmono : forall n1 n2 b1 b2,
            0 <= n1 <= n2 -> 0 <= b1 <= b2 ->
            usableCapacity w h n1 b1 <= usableCapacity w h n2 b2).
  { intros n1 n2 b1 b2 Hn Hb. rewrite !usableCapacity_unfold.
    pose proof (totalBits_monotone w h n1 n2 b1 b2 Hw Hh Hn Hb) as Ht.
    pose proof (Z.div_le_mono _ _ 8 ltac:(lia) Ht). lia. }
  repeat split.
  - intros n b1 b2 Hn Hb. apply Hmono; lia.
  - intros n1 n2 b Hn Hb. apply Hmono; lia.
  - intros ch1 ch2 b1 b2 Hlen Hb _. apply Hmono; lia.
Qed.

Lemma capacity_estimate_monotone_witness :
  usableCapacity 100 100 2 1 <= usableCapacity 100 100 2 4 /\
  usableCapacity 100 100 1 2 <= usableCapacity 100 100 3 2.
Proof.
  destruct (capacity_estimate_monotone 100 100 ltac:(lia) ltac:(lia))
    as (Hb & Hn & _).
  split; [apply Hb | apply Hn]; lia.
Defined.

(** C9. Two states of the page that differ only in the selected channels and
    in the compression switch make [handleEncode] build the same request; and
    whatever request it builds carries only the cover image (as [file], and
    as [cover] for a file), the text or the secret file, the password if one
    is in use, and [bits_per_channel]: no field for the channels, none for
    compression. *)
Theorem request_ignores_channels_and_compress (s1 s2 : State) :
  sameButChannelsAndCompress s1 s2 ->
  handleEncode s1 = handleEncode s2 /\
  (forall req, handleEncode s1 = Some req ->
     incl (keysOf (body req)) requestKeys /\
     ~ In "channels"%string (keysOf (body req)) /\
     ~ In "compress"%string (keysOf (body req))).
Proof.
  intros (Hc & _ & Ht & Htx & Hf & Hb & He & Hp). split.
  - unfold handleEncode, appendPassword, secretValue.
    now rewrite Hc, Ht, Htx, Hf, Hb, He, Hp.
  - intros req. unfold handleEncode, appendPassword, secretValue, append.
    destruct (coverImage s1); [|discriminate].
    destruct (activeTab s1), (bitsPerChannel s1);
      try discriminate;
      destruct (useEncryption s1 && truthy (password s1));
      intros [= <-]; cbn [body keysOf map fst app requestKeys];
      (repeat split;
       [ intros k Hk; simpl in Hk |- *; intuition (subst; auto 10)
       | simpl; intuition discriminate
       | simpl; intuition discriminate ]).
Qed.

Lemma request_ignores_channels_and_compress_witness :
  handleEncode demoStateA = handleEncode demoStateB.
Proof.
  apply (request_ignores_channels_and_compress demoStateA demoStateB).
  repeat split.
Defined.

(** C10. Once an image is loaded, the capacity the page reports is
    [max(0, floor(width * height * |channels| * bits / 8) - 100)]: never
    negative, and 0 when the image cannot even hold the 100-byte overhead. *)
Theorem capacity_estimate_nonneg (st : State) (stats : ImageStats) (b : Z)
    (rest : list Z) :
  imageStats st = Some stats ->
  bitsPerChannel st = b :: rest ->
  let raw :=
    width stats * height stats * Z.of_nat (List.length (channels st)) * b in
  maxCapacity (capacityEffect st) = Z.max 0 (raw / 8 - 100) /\
  0 <= maxCapacity (capacityEffect st) /\
  (raw / 8 <= 100 -> maxCapacity (capacityEffect st) = 0).
Proof.
  intros Hs Hb raw. unfold capacityEffect. rewrite Hs, Hb.
  cbn [maxCapacity]. rewrite usableCapacity_unfold. fold raw.
  repeat split; lia.
Qed.

Lemma capacity_estimate_nonneg_witness :
  maxCapacity (capacityEffect demoStateSmall) = 0.
Proof.
  refine (proj2 (proj2 (capacity_estimate_nonneg demoStateSmall
                          (mkStats 5 5 "PNG" 300) 1 [] eq_refl eq_refl)) _).
  vm_compute. discriminate.
Defined.

End EncodeLabFacts.

(* ================================================================== *)
(** ** Part IV: further properties of the pages                       *)
(* ================================================================== *)

Module PagesFacts.

Import EncodeLab EncodePage.

(** *** The channel buttons *)

Lemma includes_In (prev : list string) (channel : string) :
  includes prev channel = true <-> In channel prev.
Proof.
  unfold includes. rewrite existsb_exists. split.
  - intros (c & Hin & Heq). apply String.eqb_eq in Heq. now subst.
  - intros Hin. exists channel. split; [assumption | apply String.eqb_refl].
Qed.

Lemma includes_false (prev : list string) (channel : string) :
  includes prev channel = false <-> ~ In channel prev.
Proof.
  rewrite <- includes_In. destruct (includes prev channel); split;
    congruence.
Qed.

Lemma In_toggleChannel (channel c : string) (prev : list string) :
  In c (toggleChannel channel prev) <->
  (c = channel /\ ~ In channel prev) \/ (c <> channel /\ In c prev).
Proof.
  unfold toggleChannel. destruct (includes prev channel) eqn:E.
  - apply includes_In in E. rewrite filter_In, negb_true_iff, String.eqb_neq.
    split.
    + intros [Hin Hne]. right. auto.
    + intros [[-> Hn] | [Hne Hin]]; [contradiction | auto].
  - apply includes_false in E. rewrite in_app_iff. simpl. split.
    + intros [Hin | [<- | []]].
      * right. split; [intros ->; contradiction | assumption].
      * left. auto.
    + intros [[-> _] | [_ Hin]]; auto.
Qed.

(** X1. A click on a channel button flips that channel and no other: after
    the click the channel is selected exactly if it was not before, and every
    other channel is selected exactly if it was. *)
Theorem toggleChannel_flips (channel : string) (prev : list string) :
  (In channel (toggleChannel channel prev) <-> ~ In channel prev) /\
  (forall c, c <> channel ->
     (In c (toggleChannel channel prev) <-> In c prev)).
Proof.
  split.
  - rewrite In_toggleChannel. tauto.
  - intros c Hne. rewrite In_toggleChannel. tauto.
Qed.

Lemma toggleChannel_flips_witness :
  In "G"%string (toggleChannel "R" (channels initialState)).
Proof.
  apply (proj2 (toggleChannel_flips "R" (channels initialState)) "G"%string).
  - discriminate.
  - simpl. tauto.
Defined.

Lemma toggleChannel_NoDup (channel : string) (prev : list string) :
  NoDup prev -> NoDup (toggleChannel channel prev).
Proof.
  intros Hnd. unfold toggleChannel.
  destruct (includes prev channel) eqn:E.
  - now apply NoDup_filter.
  - apply includes_false in E.
    apply NoDup_app; [assumption | repeat constructor; auto | ].
    intros x Hx [<- | []]. contradiction.
Qed.

Lemma toggleChannel_incl (channel : string) (prev all : list string) :
  In channel all -> incl prev all -> incl (toggleChannel channel prev) all.
Proof.
  intros Hc Hincl x Hx. apply In_toggleChannel in Hx.
  destruct Hx as [[-> _] | [_ Hin]]; auto.
Qed.

(** X2. Whatever sequence of channel buttons is clicked, starting from a
    selection without repetition among R, G, B (the initial one is), the
    selection stays without repetition among R, G, B; so the channel count
    that enters the capacity estimate is at most 3. *)
Theorem channel_selection_invariant (clicks prev : list string) :
  NoDup prev ->
  incl prev channelButtons ->
  Forall (fun c => In c channelButtons) clicks ->
  NoDup (clickChannels clicks prev) /\
  incl (clickChannels clicks prev) channelButtons /\
  (List.length (clickChannels clicks prev) <= 3)%nat.
Proof.
  intros Hnd Hincl Hclicks.
  assert (H : NoDup (clickChannels clicks prev) /\
              incl (clickChannels clicks prev) channelButtons).
  { revert prev Hnd Hincl.
    induction Hclicks as [|c clicks Hc _ IH]; intros prev Hnd Hincl.
    - split; assumption.
    - cbn [clickChannels fold_left]. apply IH.
      + now apply toggleChannel_NoDup.
      + now apply toggleChannel_incl. }
  destruct H as [H1 H2]. repeat split; try assumption.
  apply (NoDup_incl_length H1 H2).
Qed.

Lemma channel_selection_invariant_witness :
  (List.length
     (clickChannels ["G"; "G"; "R"; "B"; "G"]%string
                    (channels initialState)) <= 3)%nat.
Proof.
  refine (proj2 (proj2 (channel_selection_invariant
                          ["G"; "G"; "R"; "B"; "G"]%string
                          (channels initialState) _ _ _))).
  - repeat constructor; simpl; intuition discriminate.
  - intros x Hx. exact Hx.
  - repeat (apply Forall_cons; [simpl; tauto|]). apply Forall_nil.
Defined.

Lemma filter_keeps_all {A} (f : A -> bool) (l : list A) :
  (forall x, In x l -> f x = true) -> filter f l = l.
Proof.
  induction l as [|a l IH]; intros H; simpl; [reflexivity|].
  rewrite (H a) by (now left). f_equal. apply IH. intros x Hx. apply H.
  now right.
Qed.

(** X3. Clicking the same channel button twice gives the selection back: as
    a rearrangement of the same channels when the channel was selected (it
    moves to the end), and unchanged when it was not; in both cases the
    capacity estimate is what it was. *)
Theorem toggleChannel_twice (channel : string) (prev : list string) :
  NoDup prev ->
  Permutation (toggleChannel channel (toggleChannel channel prev)) prev /\
  (~ In channel prev ->
   toggleChannel channel (toggleChannel channel prev) = prev) /\
  (forall w h b,
     usableCapacity w h
       (Z.of_nat (List.length
                    (toggleChannel channel (toggleChannel channel prev)))) b =
     usableCapacity w h (Z.of_nat (List.length prev)) b).
Proof.
  intros Hnd.
  assert (Hperm : Permutation
                    (toggleChannel channel (toggleChannel channel prev)) prev).
  { apply NoDup_Permutation.
    - now do 2 apply toggleChannel_NoDup.
    - assumption.
    - intros c. rewrite !In_toggleChannel.
      destruct (String.eqb_spec c channel) as [->|Hne];
        destruct (in_dec string_dec channel prev); tauto. }
  repeat split.
  - exact Hperm.
  - intros Hnot. unfold toggleChannel at 2.
    rewrite (proj2 (includes_false prev channel) Hnot).
    unfold toggleChannel.
    rewrite (proj2 (includes_In (prev ++ [channel]) channel))
      by (apply in_or_app; right; now left).
    rewrite filter_app. simpl. rewrite String.eqb_refl. simpl.
    rewrite app_nil_r. apply filter_keeps_all.
    intros x Hx. apply negb_true_iff, String.eqb_neq. intros ->.
    contradiction.
  - intros w h b. now rewrite (Permutation_length Hperm).
Qed.

Lemma toggleChannel_twice_witness :
  Permutation (toggleChannel "R" (toggleChannel "R" (channels initialState)))
              (channels initialState).
Proof.
  apply (toggleChannel_twice "R" (channels initialState)).
  repeat constructor; simpl; intuition discriminate.
Defined.

(** X4. Every channel can be switched off, and once none is selected the
    capacity reported for a loaded image is 0 whatever its size and the depth,
    so the encode button is disabled for every payload of positive size. *)
Theorem no_channel_no_capacity :
  clickChannels channelButtons (channels initialState) = [] /\
  (forall st stats b rest,
     imageStats st = Some stats ->
     bitsPerChannel st = b :: rest ->
     channels st = [] ->
     maxCapacity (capacityEffect st) = 0 /\
     (forall isProcessing currentSize,
        0 < currentSize ->
        encodeDisabled (capacityEffect st) isProcessing currentSize = true)).
Proof.
  split; [reflexivity|].
  intros st stats b rest Hs Hb Hc.
  assert (Hmax : maxCapacity (capacityEffect st) = 0).
  { unfold capacityEffect. rewrite Hs, Hb, Hc. cbn [maxCapacity List.length].
    unfold usableCapacity. cbn [Z.of_nat].
    rewrite Z.mul_0_r, Z.mul_0_l. reflexivity. }
  split; [exact Hmax|].
  intros p size Hpos. unfold encodeDisabled. rewrite Hmax.
  destruct (Z.ltb_spec 0 size); [|lia].
  now rewrite !orb_true_r.
Qed.

Lemma no_channel_no_capacity_witness :
  maxCapacity
    (capacityEffect (setChannels [] demoStateA)) = 0.
Proof.
  refine (proj1 (proj2 no_channel_no_capacity (setChannels [] demoStateA)
                   (mkStats 100 100 "PNG" 4096) 2 [] eq_refl eq_refl
                   eq_refl)).
Defined.

(** X5. For every image, every selection of at most three channels and
    every depth up to 8, the estimate is at most three bytes per pixel less
    the 100-byte overhead (clamped at zero), and that bound is reached with
    three channels at depth 8. *)
Theorem capacity_estimate_upper_bound (w h n b : Z) :
  0 <= w -> 0 <= h -> 0 <= n <= 3 -> 0 <= b <= 8 ->
  usableCapacity w h n b <= Z.max 0 (3 * (w * h) - 100) /\
  usableCapacity w h 3 8 = Z.max 0 (3 * (w * h) - 100).
Proof.
  intros Hw Hh Hn Hb. unfold usableCapacity. cbv zeta.
  assert (Hp : 0 <= w * h) by lia.
  assert (Hraw : w * h * n * b <= 3 * (w * h) * 8).
  { replace (3 * (w * h) * 8) with (w * h * 3 * 8) by lia.
    apply Z.mul_le_mono_nonneg; try lia;
      first [ apply Z.mul_nonneg_nonneg; lia
            | apply Z.mul_le_mono_nonneg_l; lia ]. }
  pose proof (Z.div_le_mono _ _ 8 ltac:(lia) Hraw) as Hd.
  rewrite Z.div_mul in Hd by lia.
  split; [lia|].
  replace (w * h * 3 * 8) with (3 * (w * h) * 8) by lia.
  rewrite Z.div_mul by lia. reflexivity.
Qed.

Lemma capacity_estimate_upper_bound_witness :
  usableCapacity 100 100 2 4 <= Z.max 0 (3 * (100 * 100) - 100).
Proof.
  apply (capacity_estimate_upper_bound 100 100 2 4); lia.
Defined.


(** *** The payload-size effect and the requests *)

Lemma parseDecimal_toString (z : Z) :
  parseDecimal (FText (toString z)) = Some z.
Proof.
  unfold parseDecimal, toString. rewrite NilZero.isi.
  - simpl. now rewrite DecimalZ.of_to.
  - destruct z; simpl; try discriminate.
    intros [= H]. now apply DecimalPos.Unsigned.to_uint_nonnil in H.
  - destruct z; simpl; try discriminate.
    intros [= H]. now apply DecimalPos.Unsigned.to_uint_nonnil in H.
Qed.

(** X6. Switching encryption on without typing a passphrase changes nothing
    in the request [handleEncode] builds (no password is sent), while the
    payload-size estimate grows by the 48 bytes of encryption overhead (here
    with compression off). *)
Theorem encryption_without_passphrase (ceil09 : Z -> Z) (st : State) :
  useEncryption st = true ->
  password st = EmptyString ->
  handleEncode st = handleEncode (setUseEncryption false st) /\
  (forall req, handleEncode st = Some req ->
     get (body req) "password" = None) /\
  (compress st = false ->
   payloadSize ceil09 st =
   payloadSize ceil09 (setUseEncryption false st) + 48).
Proof.
  intros He Hp. repeat split.
  - unfold handleEncode, appendPassword, secretValue, setUseEncryption.
    cbn [coverImage activeTab secretText secretFile bitsPerChannel
         useEncryption password].
    rewrite He, Hp. reflexivity.
  - intros req. unfold handleEncode, appendPassword, secretValue, append.
    rewrite He, Hp.
    destruct (coverImage st); [|discriminate].
    destruct (activeTab st), (bitsPerChannel st); try discriminate;
      intros [= <-]; reflexivity.
  - intros Hc. unfold payloadSize, setUseEncryption.
    cbn [activeTab secretText secretFile useEncryption compress].
    rewrite He, Hc. reflexivity.
Qed.

Lemma encryption_without_passphrase_witness :
  payloadSize (fun s => (9 * s + 9) / 10) demoStateNoPassphrase =
  payloadSize (fun s => (9 * s + 9) / 10)
    (setUseEncryption false demoStateNoPassphrase) + 48.
Proof.
  refine (proj2 (proj2 (encryption_without_passphrase
                          (fun s => (9 * s + 9) / 10) demoStateNoPassphrase
                          eq_refl eq_refl))
            eq_refl).
Defined.

(** X7. [handleEncode] sends a request exactly when a cover image is loaded
    and the depth array is not empty; in particular it does whenever the
    encode button is enabled (and the slider has a value), and then the
    payload-size figure does not exceed the capacity figure. *)
Theorem handleEncode_sends_iff (st : State) :
  (handleEncode st = None <->
   coverImage st = None \/ bitsPerChannel st = []) /\
  (forall isProcessing currentSize,
     encodeDisabled st isProcessing currentSize = false ->
     currentSize <= maxCapacity st /\
     (bitsPerChannel st <> [] -> exists req, handleEncode st = Some req)).
Proof.
  split.
  - unfold handleEncode.
    destruct (coverImage st) as [cover|]; [|tauto].
    destruct (activeTab st), (bitsPerChannel st); split;
      try discriminate; try tauto;
      intros [H | H]; discriminate.
  - intros p size Hd. unfold encodeDisabled in Hd.
    apply orb_false_elim in Hd as [Hd Hsize].
    apply orb_false_elim in Hd as [Hcover _].
    apply Z.ltb_ge in Hsize. split; [assumption|].
    intros Hb. unfold handleEncode.
    destruct (coverImage st) as [cover|]; [|discriminate].
    destruct (activeTab st), (bitsPerChannel st);
      try contradiction; eexists; reflexivity.
Qed.

Lemma handleEncode_sends_iff_witness :
  exists req, handleEncode demoStateA = Some req.
Proof.
  refine (proj2 (proj2 (handleEncode_sends_iff demoStateA) false 0 _) _).
  - reflexivity.
  - discriminate.
Defined.

(** X8. What a request of [handleEncode] carries can be read back from it:
    the cover image under [file], the depth under [bits_per_channel] as a
    decimal number that reads back as the slider's value, the password
    exactly when encryption is on and a passphrase is typed; on the text tab
    the text under [text], nothing under [secret], sent to hide-text; on the
    file tab the file under [secret], nothing under [text], sent to
    hide-file; and no field name occurs twice. *)
Theorem handleEncode_fields (st : State) (req : Request) :
  handleEncode st = Some req ->
  (exists cover, coverImage st = Some cover /\
                 get (body req) "file" = Some (FFile cover)) /\
  (exists b rest v, bitsPerChannel st = b :: rest /\
                    get (body req) "bits_per_channel" = Some v /\
                    parseDecimal v = Some b) /\
  get (body req) "password" =
    (if useEncryption st && truthy (password st)
     then Some (FText (password st)) else None) /\
  match activeTab st with
  | TextTab =>
      url req = "http://localhost:5000/stego/hide-text"%string /\
      get (body req) "text" = Some (FText (secretText st)) /\
      get (body req) "secret" = None
  | FileTab =>
      url req = "http://localhost:5000/stego/hide-file"%string /\
      get (body req) "secret" = Some (secretValue st) /\
      get (body req) "text" = None
  end /\
  NoDup (keysOf (body req)).
Proof.
  unfold handleEncode, appendPassword, append.
  destruct (coverImage st) as [cover|]; [|discriminate].
  destruct (activeTab st), (bitsPerChannel st) as [|b rest];
    try discriminate;
    destruct (useEncryption st && truthy (password st));
    intros [= <-]; cbn [body url app];
    (split; [exists cover; split; reflexivity|]);
    (split; [exists b, rest, (FText (toString b));
             repeat split; try reflexivity; apply parseDecimal_toString|]);
    (split; [reflexivity|]);
    (split; [repeat split; reflexivity|]);
    cbn [keysOf map fst];
    repeat constructor; simpl; intuition discriminate.
Qed.

Lemma handleEncode_fields_witness :
  exists req,
    handleEncode demoStateA = Some req /\
    get (body req) "password" = Some (FText "pw123").
Proof.
  eexists. split; [reflexivity|].
  refine (proj1 (proj2 (proj2 (handleEncode_fields demoStateA _ eq_refl)))).
Defined.

(** X9. Only the active tab's input counts: on the text tab the request and
    the payload-size estimate do not depend on the chosen file, and on the
    file tab they do not depend on the typed text. *)
Theorem inactive_tab_ignored (ceil09 : Z -> Z) (st : State) :
  (activeTab st = TextTab ->
   forall f,
     handleEncode (setSecretFile f st) = handleEncode st /\
     payloadSize ceil09 (setSecretFile f st) = payloadSize ceil09 st) /\
  (activeTab st = FileTab ->
   forall t,
     handleEncode (setSecretText t st) = handleEncode st /\
     payloadSize ceil09 (setSecretText t st) = payloadSize ceil09 st).
Proof.
  split; intros Ht x;
    unfold handleEncode, appendPassword, secretValue, payloadSize,
      setSecretFile, setSecretText;
    cbn [coverImage activeTab secretText secretFile bitsPerChannel
         useEncryption password compress];
    rewrite Ht; split; reflexivity.
Qed.

Lemma inactive_tab_ignored_witness :
  handleEncode (setSecretFile (Some demoCover) demoStateA) =
  handleEncode demoStateA.
Proof.
  refine (proj1 (proj1 (inactive_tab_ignored (fun s => s) demoStateA)
                   eq_refl (Some demoCover))).
Defined.


(** *** The decode page, the analysis page and the sidebar *)

(** X10. [handleDecode] sends a request exactly when a stego image is
    loaded; the request goes to reveal-text and carries the image under
    [file], the password exactly when one is typed, and nothing else: no
    depth, no channels. *)
Theorem handleDecode_blind (st : DecodeLab.State) :
  (DecodeLab.handleDecode st = None <-> DecodeLab.stegoImage st = None) /\
  (forall req, DecodeLab.handleDecode st = Some req ->
     url req = "http://localhost:5000/stego/reveal-text"%string /\
     (exists img, DecodeLab.stegoImage st = Some img /\
                  get (body req) "file" = Some (FFile img)) /\
     get (body req) "password" =
       (if truthy (DecodeLab.password st)
        then Some (FText (DecodeLab.password st)) else None) /\
     incl (keysOf (body req)) ["file"; "password"]%string /\
     NoDup (keysOf (body req))).
Proof.
  unfold DecodeLab.handleDecode, append.
  destruct (DecodeLab.stegoImage st) as [img|].
  - split; [split; discriminate|].
    intros req.
    destruct (truthy (DecodeLab.password st)); intros [= <-];
      cbn [body url app keysOf map fst];
      (split; [reflexivity|]);
      (split; [exists img; split; reflexivity|]);
      (split; [reflexivity|]);
      (split; [intros k Hk; simpl in Hk |- *; tauto|]);
      repeat constructor; simpl; intuition discriminate.
  - split; [tauto | discriminate].
Qed.

Lemma handleDecode_blind_witness :
  exists req,
    DecodeLab.handleDecode (DecodeLab.mkState (Some demoCover) "pw123") =
      Some req /\
    get (body req) "password" = Some (FText "pw123").
Proof.
  eexists. split; [reflexivity|].
  refine (proj1 (proj2 (proj2 (proj2 (handleDecode_blind
            (DecodeLab.mkState (Some demoCover) "pw123")) _ eq_refl)))).
Defined.

(** X11. With encryption switched on in the encode page, typing the same
    passphrase in the decode page sends the service the same [password] field
    as the encode did (both the passphrase, or both none when it is empty).
    With encryption switched off and a passphrase typed, the encode sends no
    password while the decode does. *)
Theorem password_between_labs (est : State) (dst : DecodeLab.State)
    (ereq dreq : Request) :
  handleEncode est = Some ereq ->
  DecodeLab.handleDecode dst = Some dreq ->
  DecodeLab.password dst = password est ->
  (useEncryption est = true ->
   get (body dreq) "password" = get (body ereq) "password") /\
  (useEncryption est = false -> truthy (password est) = true ->
   get (body ereq) "password" = None /\
   get (body dreq) "password" = Some (FText (password est))).
Proof.
  intros He Hd Hpw.
  assert (Hep : get (body ereq) "password" =
                if useEncryption est && truthy (password est)
                then Some (FText (password est)) else None).
  { revert He. unfold handleEncode, appendPassword, append.
    destruct (coverImage est); [|discriminate].
    destruct (activeTab est), (bitsPerChannel est); try discriminate;
      destruct (useEncryption est && truthy (password est));
      intros [= <-]; reflexivity. }
  assert (Hdp : get (body dreq) "password" =
                if truthy (password est)
                then Some (FText (password est)) else None).
  { revert Hd. unfold DecodeLab.handleDecode, append. rewrite Hpw.
    destruct (DecodeLab.stegoImage dst); [|discriminate].
    destruct (truthy (password est)); intros [= <-]; reflexivity. }
  rewrite Hep, Hdp. split.
  - intros ->. reflexivity.
  - intros -> ->. split; reflexivity.
Qed.

Lemma password_between_labs_witness :
  exists ereq dreq,
    handleEncode demoStateA = Some ereq /\
    DecodeLab.handleDecode (DecodeLab.mkState (Some demoCover) "pw123") =
      Some dreq /\
    get (body dreq) "password" = get (body ereq) "password".
Proof.
  eexists. eexists. split; [reflexivity|]. split; [reflexivity|].
  refine (proj1 (password_between_labs demoStateA
                   (DecodeLab.mkState (Some demoCover) "pw123")
                   _ _ eq_refl eq_refl eq_refl) eq_refl).
Defined.

(** X12. [handleVisualize] sends a request exactly when an image is loaded
    and the bit-plane array is not empty; the request carries the image, the
    selected channel as one of R, G, B, and the bit plane as a decimal number
    that reads back as the slider's value, under three distinct field
    names. *)
Theorem handleVisualize_fields (st : AnalyzeLab.State) :
  (AnalyzeLab.handleVisualize st = None <->
   AnalyzeLab.image st = None \/ AnalyzeLab.bitPlane st = []) /\
  (forall req, AnalyzeLab.handleVisualize st = Some req ->
     (exists img, AnalyzeLab.image st = Some img /\
                  get (body req) "file" = Some (FFile img)) /\
     (exists b rest v, AnalyzeLab.bitPlane st = b :: rest /\
                       get (body req) "bit_plane" = Some v /\
                       parseDecimal v = Some b) /\
     (exists c, get (body req) "channel" = Some (FText c) /\
                In c ["R"; "G"; "B"]%string) /\
     keysOf (body req) = ["file"; "bit_plane"; "channel"]%string).
Proof.
  unfold AnalyzeLab.handleVisualize, append.
  destruct (AnalyzeLab.image st) as [img|].
  - destruct (AnalyzeLab.bitPlane st) as [|b rest].
    + split; [split; auto | discriminate].
    + split; [split; [discriminate | intros [H|H]; discriminate]|].
      intros req [= <-]. cbn [body app keysOf map fst].
      split; [exists img; split; reflexivity|].
      split; [exists b, rest, (FText (toString b));
              repeat split; try reflexivity; apply parseDecimal_toString|].
      split; [|reflexivity].
      exists (AnalyzeLab.channelString (AnalyzeLab.channel st)).
      split; [reflexivity|].
      destruct (AnalyzeLab.channel st); simpl; auto.
  - split; [split; auto | discriminate].
Qed.

Lemma handleVisualize_fields_witness :
  exists req,
    AnalyzeLab.handleVisualize
      (AnalyzeLab.mkState (Some demoCover) [5] AnalyzeLab.B) = Some req /\
    keysOf (body req) = ["file"; "bit_plane"; "channel"]%string.
Proof.
  eexists. split; [reflexivity|].
  refine (proj2 (proj2 (proj2 (proj2 (handleVisualize_fields
            (AnalyzeLab.mkState (Some demoCover) [5] AnalyzeLab.B)) _
            eq_refl)))).
Defined.

Lemma nav_urls_NoDup :
  NoDup (map AppSidebar.url (flat_map AppSidebar.items AppSidebar.navMain)).
Proof. repeat constructor; simpl; intuition discriminate. Qed.

Lemma filter_eqb_NoDup (pathname : string) (l : list AppSidebar.NavItem) :
  NoDup (map AppSidebar.url l) ->
  (List.length (filter (AppSidebar.isActive pathname) l) <= 1)%nat /\
  (In pathname (map AppSidebar.url l) ->
   List.length (filter (AppSidebar.isActive pathname) l) = 1%nat) /\
  (~ In pathname (map AppSidebar.url l) ->
   filter (AppSidebar.isActive pathname) l = []).
Proof.
  induction l as [|a l IH]; intros Hnd.
  - simpl. repeat split; auto. intros [].
  - cbn [map] in Hnd. inversion Hnd as [|? ? Hnot Hnd']; subst.
    destruct (IH Hnd') as (IH1 & IH2 & IH3).
    cbn [filter map In].
    destruct (AppSidebar.isActive pathname a) eqn:E;
      unfold AppSidebar.isActive in E.
    + apply String.eqb_eq in E. subst pathname.
      rewrite (IH3 Hnot). simpl.
      split; [apply Nat.le_refl|].
      split; [intros _; reflexivity|].
      intros H. exfalso. apply H. now left.
    + apply String.eqb_neq in E.
      split; [exact IH1|]. split.
      * intros [H|H]; [congruence | auto].
      * intros H. apply IH3. tauto.
Qed.

Lemma activeItems_filter (pathname : string) :
  AppSidebar.activeItems pathname =
  filter (AppSidebar.isActive pathname)
         (flat_map AppSidebar.items AppSidebar.navMain).
Proof.
  unfold AppSidebar.activeItems.
  induction AppSidebar.navMain as [|g gs IH]; [reflexivity|].
  cbn [flat_map]. now rewrite filter_app, IH.
Qed.

(** X13. Whatever the current path is, the sidebar shows at most one
    navigation entry as active: exactly one when the path is the address of
    an entry (and then it is an entry with that address), none otherwise. *)
Theorem sidebar_one_active (pathname : string) :
  (List.length (AppSidebar.activeItems pathname) <= 1)%nat /\
  (In pathname ["/"; "/encode"; "/decode"; "/analyze"; "/capacity";
                "/batch"]%string ->
   exists item, AppSidebar.activeItems pathname = [item] /\
                AppSidebar.url item = pathname) /\
  (~ In pathname ["/"; "/encode"; "/decode"; "/analyze"; "/capacity";
                  "/batch"]%string ->
   AppSidebar.activeItems pathname = []).
Proof.
  rewrite activeItems_filter.
  destruct (filter_eqb_NoDup pathname _ nav_urls_NoDup) as (H1 & H2 & H3).
  repeat split.
  - exact H1.
  - intros Hin. specialize (H2 Hin).
    destruct (filter (AppSidebar.isActive pathname)
                (flat_map AppSidebar.items AppSidebar.navMain))
      as [|item [|x l]] eqn:E; try discriminate.
    exists item. split; [reflexivity|].
    assert (Hi : In item (filter (AppSidebar.isActive pathname)
                  (flat_map AppSidebar.items AppSidebar.navMain)))
      by (rewrite E; now left).
    apply filter_In in Hi as [_ Hact].
    unfold AppSidebar.isActive in Hact. apply String.eqb_eq in Hact. auto.
  - exact H3.
Qed.

Lemma sidebar_one_active_witness :
  exists item, AppSidebar.activeItems "/decode" = [item] /\
               AppSidebar.url item = "/decode"%string.
Proof.
  apply (proj1 (proj2 (sidebar_one_active "/decode"))).
  simpl. tauto.
Defined.

End PagesFacts.
